(** * shared_utils/text_processing.py: the text processor

    A shallow embedding of [TextProcessor] and of the part of Python's
    [str] and [re] that it calls, followed by the properties of the
    cleaning, feature-extraction, buzzword, call-to-action and sentiment
    routines.

    A Python [str] is a sequence of Unicode code points: [list N] here.
    The regular expressions are kept as syntax and run by a backtracking
    matcher with the priorities of [re] (ordered alternatives, greedy
    repetition, leftmost non-overlapping scan).

    The configuration manager of shared_utils/config_management.py and
    [get_project_root] of shared_utils/file_utils.py follow, over a file
    system and an environment that are arguments of the calls. *)

From Stdlib Require Import Ascii String NArith QArith.
From stdpp Require Import base option list strings gmap sorting.

Local Open Scope N_scope.
Local Open Scope list_scope.

(** ** Code points and string literals *)

Definition ord (a : ascii) : N := N_of_ascii a.

Fixpoint str (s : string) : list N :=
  match s with
  | EmptyString => []
  | String a s' => ord a :: str s'
  end.

Definition in_range (lo hi c : N) : bool := (lo <=? c) && (c <=? hi).

Definition one_of (cs : list N) (c : N) : bool := bool_decide (c ∈ cs).

Definition is_char (a : ascii) (c : N) : bool := c =? ord a.

(** [str.isspace] on one code point, which is also [\s] of a [str]
    pattern and the set that [str.split()] and [str.strip()] use. *)
Definition is_space (c : N) : bool :=
  in_range 0x09 0x0D c || in_range 0x1C 0x20 c
  || one_of [0x85; 0xA0; 0x1680] c || in_range 0x2000 0x200A c
  || one_of [0x2028; 0x2029; 0x202F; 0x205F; 0x3000] c.

(** The tables of the Unicode character database that the processor
    reaches through [re] and [str].  They belong to the Python runtime,
    not to this module, and stay abstract. *)
Class UnicodeData := {
  (** [str.isalnum] on one code point; [\w] is this or an underscore *)
  is_alnum : N → bool;
  (** [\d]: a decimal digit (category Nd) *)
  is_decimal : N → bool;
  (** [str.isupper] on one code point *)
  is_upper : N → bool;
  (** [ignorecase_eq p c]: under [re.IGNORECASE] the pattern literal [p]
      matches the text character [c] *)
  ignorecase_eq : N → N → bool;
  (** full lowercase mapping of one code point, as [str.lower] uses it *)
  to_lower_full : N → list N;
  (** the Cased and Case_Ignorable properties, for the final-sigma rule *)
  is_cased : N → bool;
  is_case_ignorable : N → bool
}.

(** ** Regular expressions *)

Inductive regex :=
| Empty                        (* the empty pattern *)
| Class (p : N → bool)         (* one character: a literal, [...], \d, \s *)
| Seq (r1 r2 : regex)          (* r1 r2 *)
| Alt (r1 r2 : regex)          (* r1|r2, r1 tried first *)
| Plus (r : regex)             (* r+, greedy *)
| Boundary.                    (* \b *)

(** A position of the matcher: the character just before it, if any,
    and the text from it on. *)
Definition state : Type := option N * list N.

(** One or more rounds of [step], the longest continuation first. A round
    that consumes nothing ends the repetition. *)
Fixpoint iterate (step : state → list state) (fuel : nat) (st : state)
    : list state :=
  match fuel with
  | O => []
  | S fuel' =>
      st' ← step st;
      (if decide (length st'.2 < length st.2)%nat
       then iterate step fuel' st' else []) ++ [st']
  end.

(** The text cut by a scan: a character copied through, or a match. *)
Inductive piece := Lit (c : N) | Hit (m : list N).

(** The scan shared by [re.sub] and [re.findall], for a matcher [m] that
    gives the length of the match at a position ([m true] after an empty
    match, when the next match there must not be empty). [skip] counts the
    characters of the current match that are still to be passed. *)
Fixpoint scan (m : bool → state → option nat) (skip : nat)
    (prev : option N) (s : list N) {struct s} : list piece :=
  match skip with
  | S k =>
      match s with
      | c :: s' => scan m k (Some c) s'
      | [] => []
      end
  | O =>
      let copy :=
        match s with
        | c :: s' => Lit c :: scan m 0 (Some c) s'
        | [] => []
        end in
      let pass (n : nat) :=
        match s with
        | c :: s' => scan m (pred n) (Some c) s'
        | [] => []
        end in
      match m false (prev, s) with
      | Some (S n) => Hit (take (S n) s) :: pass (S n)
      | Some O =>
          Hit [] ::
          match m true (prev, s) with
          | Some n => Hit (take n s) :: pass n
          | None => copy
          end
      | None => copy
      end
  end.

(** Start offset and text of every match, left to right. *)
Fixpoint spans (pos : nat) (ps : list piece) : list (nat * list N) :=
  match ps with
  | [] => []
  | Lit _ :: ps' => spans (S pos) ps'
  | Hit m :: ps' => (pos, m) :: spans (pos + length m) ps'
  end.

(** The text with every match replaced by [repl]. *)
Definition replace (repl : list N) (ps : list piece) : list N :=
  p ← ps; match p with Lit c => [c] | Hit _ => repl end.

Section Matcher.
Context {U : UnicodeData}.

Definition is_word (c : N) : bool := is_alnum c || is_char "_" c.

Definition word_before (st : state) : bool :=
  match st.1 with Some c => is_word c | None => false end.

Definition word_after (st : state) : bool :=
  match st.2 with c :: _ => is_word c | [] => false end.

(** Every way [r] matches at [st], as the positions after the match, in
    the order in which a backtracking matcher tries them. *)
Fixpoint rmatch (r : regex) (st : state) : list state :=
  match r with
  | Empty => [st]
  | Class p =>
      match st.2 with
      | c :: s => if p c then [(Some c, s)] else []
      | [] => []
      end
  | Seq r1 r2 => rmatch r1 st ≫= rmatch r2
  | Alt r1 r2 => rmatch r1 st ++ rmatch r2 st
  | Plus r1 => iterate (rmatch r1) (S (length st.2)) st
  | Boundary => if xorb (word_before st) (word_after st) then [st] else []
  end.

(** Length of the match that [re] reports at [st]: the first one that the
    matcher finds. After an empty match the next one at the same position
    must be non-empty. *)
Definition match_at (r : regex) (must_advance : bool) (st : state)
    : option nat :=
  head (filter (λ n, must_advance = false ∨ (0 < n)%nat)
          ((λ st' : state, (length st.2 - length st'.2)%nat) <$> rmatch r st)).

(** [re.finditer(r, s)], as offsets and texts. *)
Definition finditer (r : regex) (s : list N) : list (nat * list N) :=
  spans 0 (scan (match_at r) 0 None s).

(** [re.findall(r, s)]. Each pattern of this module has at most one
    group, and that group spans the whole match up to zero-width [\b],
    so the text of the group is the text of the match. *)
Definition findall (r : regex) (s : list N) : list (list N) :=
  snd <$> finditer r s.

(** [re.search(r, s)]: the first match, if any. *)
Definition search (r : regex) (s : list N) : option (nat * list N) :=
  head (finditer r s).

(** [re.sub(r, repl, s)] for a replacement without group references. *)
Definition sub (r : regex) (repl : list N) (s : list N) : list N :=
  replace repl (scan (match_at r) 0 None s).

End Matcher.

(** Pattern syntax used below. *)
Definition Opt (r : regex) : regex := Alt r Empty.          (* r? *)
Definition AtLeast3 (r : regex) : regex := Seq r (Seq r (Plus r)). (* r{3,} *)
Definition Chr (a : ascii) : regex := Class (is_char a).

Fixpoint Word (s : string) : regex :=
  match s with
  | EmptyString => Empty
  | String a s' => Seq (Chr a) (Word s')
  end.

Fixpoint AnyOf (rs : list regex) : regex :=
  match rs with
  | [] => Class (λ _, false)
  | [r] => r
  | r :: rs' => Alt r (AnyOf rs')
  end.

(** ** The part of [str] and of the builtins that the processor calls *)

Fixpoint take_while (p : N → bool) (s : list N) : list N :=
  match s with
  | c :: s' => if p c then c :: take_while p s' else []
  | [] => []
  end.

Fixpoint drop_while (p : N → bool) (s : list N) : list N :=
  match s with
  | c :: s' => if p c then drop_while p s' else s
  | [] => []
  end.

(** [s.strip()] *)
Definition lstrip (s : list N) : list N := drop_while is_space s.
Definition rstrip (s : list N) : list N := reverse (drop_while is_space (reverse s)).
Definition strip (s : list N) : list N := rstrip (lstrip s).

(** [s.split()]: the maximal runs of characters that are not whitespace.
    [cur] is the run being read. *)
Fixpoint split_runs (cur : list N) (s : list N) : list (list N) :=
  match s with
  | [] => if cur is [] then [] else [cur]
  | c :: s' =>
      if is_space c
      then (if cur is [] then split_runs [] s' else cur :: split_runs [] s')
      else split_runs (cur ++ [c]) s'
  end.

Definition split (s : list N) : list (list N) := split_runs [] s.

(** [s.split(sep)] for a separator of one character: one segment more
    than there are separators, empty segments kept. *)
Fixpoint split_on (sep : N) (s : list N) : list (list N) :=
  match s with
  | [] => [[]]
  | c :: s' =>
      if c =? sep then [] :: split_on sep s'
      else match split_on sep s' with
           | seg :: segs => (c :: seg) :: segs
           | [] => [[c]]
           end
  end.

(** [s.count(c)] for one character *)
Definition count (a : ascii) (s : list N) : nat := length (filter (λ c, c = ord a) s).

(** [string.punctuation] *)
Definition punctuation : list N :=
  str "!" ++ [0x22] ++ str "#$%&'()*+,-./:;<=>?@[\]^_`{|}~".

(** [s.translate(str.maketrans('', '', deleted))] *)
Definition translate_delete (deleted : list N) (s : list N) : list N :=
  filter (λ c, c ∉ deleted) s.

Section Lower.
Context {U : UnicodeData}.

(** The Final_Sigma context of a capital sigma: a cased letter before
    it and none after it, case-ignorable characters aside.
    [before] holds the preceding text, nearest character first. *)
Definition final_sigma (before after : list N) : bool :=
  match drop_while is_case_ignorable before with
  | c :: _ =>
      is_cased c &&
      match drop_while is_case_ignorable after with
      | c' :: _ => negb (is_cased c')
      | [] => true
      end
  | [] => false
  end.

Fixpoint lower_from (before : list N) (s : list N) : list N :=
  match s with
  | [] => []
  | c :: s' =>
      (if c =? 0x3A3
       then [if final_sigma before s' then 0x3C2 else 0x3C3]
       else to_lower_full c) ++ lower_from (c :: before) s'
  end.

(** [s.lower()] *)
Definition lower (s : list N) : list N := lower_from [] s.

End Lower.

(** A finite [float] (an IEEE 754 binary64):
    [(-1)^negative * mantissa * 2^exponent]. *)
Record double := Float { negative : bool; mantissa : Z; exponent : Z }.

(** The integer nearest to [num / den], the even one of two that are
    equally near ([0 < den]). *)
Definition round_half_even (num den : Z) : Z :=
  let q := (num / den)%Z in
  let r := (num mod den)%Z in
  if (2 * r <? den)%Z then q
  else if (2 * r =? den)%Z && Z.even q then q
  else (q + 1)%Z.

(** [a / b / 2^k] as a fraction of integers *)
Definition scaled_fraction (a b k : Z) : Z * Z :=
  (a * 2 ^ Z.max 0 (- k), b * 2 ^ Z.max 0 k)%Z.

(** [p] with [2^p <= a / b < 2^(p+1)], for positive [a] and [b] *)
Definition binade (a b : Z) : Z :=
  let d := (Z.log2 a - Z.log2 b)%Z in
  let '(num, den) := scaled_fraction a b d in
  if (den <=? num)%Z then d else (d - 1)%Z.

(** The quotient of two integers ([b ≠ 0]) rounded to 53 significant bits,
    or to a multiple of [2^-1074] where it is below [2^-1022]. *)
Definition divide (a b : Z) : double :=
  let negate := xorb (a <? 0)%Z (b <? 0)%Z in
  let a := Z.abs a in
  let b := Z.abs b in
  if decide (a = 0%Z) then Float negate 0 (-1074) else
  let e := Z.max (binade a b - 52) (-1074) in
  let m := (let '(num, den) := scaled_fraction a b e in round_half_even num den) in
  if decide (m = 2 ^ 53)%Z then Float negate (2 ^ 52) (e + 1) else Float negate m e.

(** Python's [a / b] on integers: the float nearest to the quotient, the
    one with an even mantissa of two that are equally near, whatever the
    size of the integers. It raises [ZeroDivisionError] on a zero divisor
    and [OverflowError] where the result is too large for a float ([None]
    here for both). *)
Definition truediv (a b : Z) : option double :=
  if decide (b = 0%Z) then None
  else
    let x := divide a b in
    if (971 <? exponent x)%Z then None else Some x.

(** [sum(...)] of Python integers *)
Definition py_sum (xs : list Z) : Z := foldl Z.add 0%Z xs.

(** [len(...)] *)
Definition len {A} (xs : list A) : Z := Z.of_nat (length xs).

(** ** TextProcessor *)

(** A feature is an [int] or a [float]. *)
Inductive value := VInt (n : Z) | VFloat (x : double).

Definition is_emoji (c : N) : bool :=
  in_range 0x1F600 0x1F64F c      (* emoticons *)
  || in_range 0x1F300 0x1F5FF c   (* symbols & pictographs *)
  || in_range 0x1F680 0x1F6FF c   (* transport & map symbols *)
  || in_range 0x1F1E0 0x1F1FF c   (* flags (iOS) *)
  || in_range 0x2702 0x27B0 c
  || in_range 0x24C2 0x1F251 c.

(** [self.emoji_pattern] *)
Definition emoji_pattern : regex := Plus (Class is_emoji).

(** [<[^>]+>] *)
Definition html_tag : regex :=
  Seq (Chr "<") (Seq (Plus (Class (λ c, negb (is_char ">" c)))) (Chr ">")).

Definition is_hex (c : N) : bool :=
  in_range (ord "0") (ord "9") c || in_range (ord "a") (ord "f") c
  || in_range (ord "A") (ord "F") c.

(** [(?:[a-zA-Z]|[0-9]|[$-_@.&+]|[!*\\(\\),]|(?:%[0-9a-fA-F][0-9a-fA-F]))] *)
Definition url_chars : regex :=
  AnyOf
    [ Class (λ c, in_range (ord "a") (ord "z") c || in_range (ord "A") (ord "Z") c);
      Class (in_range (ord "0") (ord "9"));
      Class (λ c, in_range (ord "$") (ord "_") c || one_of (str "@.&+") c);
      Class (one_of (str "!*\(\),"));
      Seq (Chr "%") (Seq (Class is_hex) (Class is_hex)) ].

(** [http[s]?://(?:...)+] *)
Definition url : regex :=
  Seq (Word "http") (Seq (Opt (Class (one_of (str "s"))))
    (Seq (Word "://") (Plus url_chars))).

(** [\s+] *)
Definition whitespace : regex := Plus (Class is_space).

(** [\b[A-Z]{3,}\b] *)
Definition all_caps : regex :=
  Seq Boundary (Seq (AtLeast3 (Class (in_range (ord "A") (ord "Z")))) Boundary).

Section TextProcessor.
Context {U : UnicodeData}.

(** A pattern literal under [re.IGNORECASE] *)
Fixpoint IWord (s : string) : regex :=
  match s with
  | EmptyString => Empty
  | String a s' => Seq (Class (ignorecase_eq (ord a))) (IWord s')
  end.

(** [\b(w1|w2|...)\b] compiled with [re.IGNORECASE] *)
Definition keywords (ws : list string) : regex :=
  Seq Boundary (Seq (AnyOf (IWord <$> ws)) Boundary).

Definition clean_text (text : list N) (remove_emojis : bool) : list N :=
  if text is [] then [] else
  (* Remove HTML tags *)
  let text := sub html_tag [] text in
  (* Remove URLs *)
  let text := sub url [] text in
  (* Remove emojis if requested *)
  let text := if remove_emojis then sub emoji_pattern [] text else text in
  (* Normalize whitespace *)
  let text := sub whitespace (str " ") text in
  let text := strip text in
  text.

(** [\d+], [\d+%] and [\$\d+] *)
Definition number : regex := Plus (Class is_decimal).
Definition percentage : regex := Seq (Plus (Class is_decimal)) (Chr "%").
Definition price : regex := Seq (Chr "$") (Plus (Class is_decimal)).

(** [cta_patterns] of [extract_features] *)
Definition feature_cta_patterns : list regex :=
  [ keywords ["shop"; "buy"; "get"; "try"; "learn"; "discover"; "sign up"; "download"];
    keywords ["now"; "today"; "click"; "tap"; "visit"] ].

(** [None] stands for an exception escaping the function. *)
Definition extract_features (text : list N) : option (gmap string value) :=
  let features : gmap string value := ∅ in
  (* Basic metrics *)
  let features := <["word_count" := VInt (len (split text))]> features in
  let features := <["char_count" := VInt (len text)]> features in
  let features := <["sentence_count" :=
    VInt (len (filter (λ s, strip s ≠ []) (split_on (ord ".") text)))]> features in
  (* Capitalization patterns *)
  let features := <["all_caps_words" := VInt (len (findall all_caps text))]> features in
  caps_ratio ←
    (if text is [] then Some (VInt 0)
     else VFloat <$> truediv (py_sum ((λ _, 1%Z) <$> filter (λ c, is_upper c = true) text))
                             (len text));
  let features := <["caps_ratio" := caps_ratio]> features in
  (* Punctuation analysis *)
  let features := <["exclamation_count" := VInt (Z.of_nat (count "!" text))]> features in
  let features := <["question_count" := VInt (Z.of_nat (count "?" text))]> features in
  let features := <["emoji_count" := VInt (len (findall emoji_pattern text))]> features in
  (* Numeric content *)
  let features := <["number_count" := VInt (len (findall number text))]> features in
  let features := <["percentage_mentions" := VInt (len (findall percentage text))]> features in
  let features := <["price_mentions" := VInt (len (findall price text))]> features in
  (* Call-to-action indicators *)
  let features := <["cta_signals" :=
    VInt (py_sum ((λ pattern, len (findall pattern text)) <$> feature_cta_patterns))]> features in
  Some features.

(** [extract_features(text)[key]] *)
Definition feature (key : string) (text : list N) : option value :=
  extract_features text ≫= (.!! key).

Definition common_words : gset (list N) :=
  list_to_set (str <$> ["the"; "and"; "or"; "but"; "in"; "on"; "at"; "to";
                        "for"; "of"; "with"; "by"]).

Definition extract_buzzwords (text : list N) (min_length : Z) : list (list N) :=
  (* Remove punctuation and convert to lowercase *)
  let clean_text := lower (translate_delete punctuation text) in
  let words := split clean_text in
  (* Filter by length and remove common words *)
  let buzzwords :=
    filter (λ word, (len word >= min_length)%Z ∧ word ∉ common_words) words in
  elements (list_to_set buzzwords : gset (list N)).  (* Remove duplicates *)

Definition cta_patterns : list regex :=
  [ keywords ["shop now"; "buy today"; "get started"; "learn more"; "sign up"; "download"];
    keywords ["click here"; "tap to"; "visit us"; "try free"; "order now"];
    keywords ["limited time"; "act now"; "don't miss"; "hurry up"] ].

Definition extract_cta_text (text : list N) : list (list N) :=
  foldl (λ ctas pattern, ctas ++ findall pattern text) [] cta_patterns.

Definition positive_patterns : list regex :=
  [ keywords ["amazing"; "awesome"; "great"; "excellent"; "perfect"; "love"; "best"];
    keywords ["incredible"; "fantastic"; "wonderful"; "outstanding"; "brilliant"] ].

Definition negative_patterns : list regex :=
  [ keywords ["terrible"; "awful"; "worst"; "hate"; "horrible"; "bad"];
    keywords ["disappointing"; "frustrating"; "annoying"; "poor"] ].

Definition urgency_patterns : list regex :=
  [ keywords ["urgent"; "immediate"; "asap"; "quickly"; "fast"; "rapid"];
    keywords ["deadline"; "expires"; "limited"; "ending"; "final"] ].

(** [sum(len(re.findall(pattern, text, re.IGNORECASE)) for pattern in patterns)] *)
Definition count_matches (patterns : list regex) (text : list N) : Z :=
  py_sum ((λ pattern, len (findall pattern text)) <$> patterns).

Definition analyze_sentiment_indicators (text : list N) : gmap string Z :=
  {[ "positive_count" := count_matches positive_patterns text;
     "negative_count" := count_matches negative_patterns text;
     "urgency_count" := count_matches urgency_patterns text ]}.

End TextProcessor.

(** ** The methods on an argument that may be [None]

    The signatures say [text: str] and nothing checks it: a caller can
    pass [None]. Only [clean_text] tests its argument; the other methods
    fail at the first use of it, [text.split()] and [text.translate(...)]
    with an [AttributeError] and [re.findall(pattern, text, ...)] with a
    [TypeError]. [ZeroDivisionError] and [OverflowError] are both an
    [ArithmeticError]. *)

Inductive pyobj := PyNone | PyStr (s : list N).

Inductive exception := AttributeError | TypeError | ArithmeticError.

Module Untyped.
Section Untyped.
Context {U : UnicodeData}.

(** [not text] holds of [None] as of the empty text. *)
Definition clean_text (text : pyobj) (remove_emojis : bool) : exception + list N :=
  match text with
  | PyNone => inr []
  | PyStr text => inr (clean_text text remove_emojis)
  end.

Definition extract_features (text : pyobj) : exception + gmap string value :=
  match text with
  | PyNone => inl AttributeError
  | PyStr text =>
      match extract_features text with
      | Some features => inr features
      | None => inl ArithmeticError
      end
  end.

Definition extract_buzzwords (text : pyobj) (min_length : Z)
    : exception + list (list N) :=
  match text with
  | PyNone => inl AttributeError
  | PyStr text => inr (extract_buzzwords text min_length)
  end.

Definition extract_cta_text (text : pyobj) : exception + list (list N) :=
  match text with
  | PyNone => inl TypeError
  | PyStr text => inr (extract_cta_text text)
  end.

Definition analyze_sentiment_indicators (text : pyobj) : exception + gmap string Z :=
  match text with
  | PyNone => inl TypeError
  | PyStr text => inr (analyze_sentiment_indicators text)
  end.

End Untyped.
End Untyped.

(** The call returns: no exception escapes it. *)
Definition returns {A} (r : exception + A) : Prop := ∃ a, r = inr a.

(** ** The ASCII fragment of the Unicode tables

    Exact below 128. Code points from 128 on are taken as caseless symbols
    that are neither letters nor digits, which is what the emoji used in
    the examples are. *)
Module AsciiData.

Definition digit (c : N) : bool := in_range (ord "0") (ord "9") c.
Definition upper (c : N) : bool := in_range (ord "A") (ord "Z") c.
Definition lower_letter (c : N) : bool := in_range (ord "a") (ord "z") c.
Definition to_lower (c : N) : N := if upper c then c + 32 else c.

Definition data : UnicodeData := {|
  is_alnum c := digit c || upper c || lower_letter c;
  is_decimal := digit;
  is_upper := upper;
  ignorecase_eq p c := (c <? 128) && (to_lower p =? to_lower c);
  to_lower_full c := [to_lower c];
  is_cased c := upper c || lower_letter c;
  is_case_ignorable := one_of (str "'.:^`")
|}.

End AsciiData.

(** ** shared_utils/config_management.py: ConfigManager

    A configuration is a [dict] with [str] keys: a finite map from code
    point lists here (the order of insertion is not kept). *)

Section Dicts.
Context {V : Type}.

(** [merged = {}; for config in configs: merged.update(config)] *)
Definition merge_configs (configs : list (gmap (list N) V)) : gmap (list N) V :=
  foldl (λ merged config, config ∪ merged) ∅ configs.

(** The result, and the missing keys of the message that is printed, if
    one is. *)
Definition validate_config (config : gmap (list N) V)
    (required_keys : list (list N)) : bool * list (list (list N)) :=
  let missing_keys := filter (λ key, config !! key = None) required_keys in
  if missing_keys is [] then (true, []) else (false, [missing_keys]).

End Dicts.

(** [value.lower() in ('true', '1', 'yes', 'on')] and the like *)
Definition str_in (s : list N) (ws : list string) : bool :=
  bool_decide (s ∈ str <$> ws).

(** The [var_type] argument of [get_env_var]: the four types that the
    conversion tells apart, and any other. *)
Inductive var_type := TBool | TInt | TFloat | TOther.

Section ConfigManager.
Context {U : UnicodeData}.

(** [pathlib.Path]: joining ([dir / name]) and [Path.suffix] *)
Context {path : Type}.
Variable join : path → list N → path.
Variable suffix : path → list N.

(** The value that a configuration file parses to; [bool(v)] of it;
    the empty dict *)
Context {pyval : Type}.
Variable truthy : pyval → bool.
Variable empty_dict : pyval.

(** The file system at the time of a call; [None] is an exception raised
    by [open] or by the parser. *)
Record filesystem := {
  file_exists : path → bool;
  yaml_safe_load : path → option pyval;
  json_load : path → option pyval
}.

(** [for ext in exts: test_path = ...; if test_path.exists(): return test_path]
    and then [return None] *)
Fixpoint first_existing (fs : filesystem) (config_dir : path)
    (config_name : list N) (exts : list string) : option path :=
  match exts with
  | [] => None
  | ext :: exts' =>
      let test_path := join config_dir (config_name ++ str ext) in
      if file_exists fs test_path then Some test_path
      else first_existing fs config_dir config_name exts'
  end.

Definition _find_config_file (fs : filesystem) (config_dir : path)
    (config_name config_type : list N) : option path :=
  let check (config_name : list N) :=
    let config_path := join config_dir config_name in
    if file_exists fs config_path then Some config_path else None in
  (* Add extension if not present *)
  if bool_decide (ord "." ∉ config_name) then
    if bool_decide (config_type = str "json") then check (config_name ++ str ".json")
    else if str_in config_type ["yaml"; "yml"] then check (config_name ++ str ".yml")
    else first_existing fs config_dir config_name [".yml"; ".yaml"; ".json"]
  else check config_name.

(** The configuration returned, the cache after the call, and the paths
    of the warnings printed. *)
Definition load_config (fs : filesystem) (config_dir : path)
    (_config_cache : gmap (list N) pyval)
    (config_name config_type : list N) (use_cache : bool)
    : pyval * gmap (list N) pyval * list path :=
  let cache_key := config_name ++ str "_" ++ config_type in
  match (if use_cache then _config_cache !! cache_key else None) with
  | Some config => (config, _config_cache, [])
  | None =>
      (* Find config file *)
      match _find_config_file fs config_dir config_name config_type with
      | None => (empty_dict, _config_cache, [])
      | Some config_path =>
          (* Load based on file type *)
          let loaded :=
            if str_in (lower (suffix config_path)) [".yml"; ".yaml"]
            then (λ v, if truthy v then v else empty_dict) <$> yaml_safe_load fs config_path
            else if bool_decide (lower (suffix config_path) = str ".json")
            then json_load fs config_path
            else Some empty_dict in
          match loaded with
          | Some config =>
              (* Cache the result *)
              (config,
               if use_cache then <[cache_key := config]> _config_cache
               else _config_cache,
               [])
          | None => (empty_dict, _config_cache, [config_path])
          end
      end
  end.

(** [get_env_var]: the default, or the converted value, or a
    [ValueError]. [int] and [float] are the parsers of the runtime. *)
Context {default_value float : Type}.
Variable parse_int : list N → option Z.
Variable parse_float : list N → option float.

Inductive env_value :=
| Default (default : default_value)
| BoolValue (b : bool)
| IntValue (n : Z)
| FloatValue (x : float)
| StrValue (s : list N).

Inductive value_error :=
| NotSet (var_name : list N)
| CannotConvert (var_name : list N) (to : var_type).

Definition get_env_var (environ : gmap (list N) (list N))
    (var_name : list N) (default : default_value) (to : var_type)
    (required : bool) : value_error + env_value :=
  match environ !! var_name with
  | None => if required then inl (NotSet var_name) else inr (Default default)
  | Some value =>
      (* Type conversion *)
      let converted :=
        match to with
        | TBool => Some (BoolValue (str_in (lower value) ["true"; "1"; "yes"; "on"]))
        | TInt => IntValue <$> parse_int value
        | TFloat => FloatValue <$> parse_float value
        | TOther => Some (StrValue value)
        end in
      match converted with
      | Some v => inr v
      | None =>
          if required then inl (CannotConvert var_name to) else inr (Default default)
      end
  end.

End ConfigManager.

Arguments filesystem : clear implicits.
Arguments env_value : clear implicits.

(** ** shared_utils/file_utils.py: get_project_root *)

Section ProjectRoot.
Context {path : Type}.
Variable join : path → list N → path.
Variable exists_ : path → bool.

(** [for marker in marker_files: if (path / marker).exists(): ...] *)
Fixpoint has_marker (p : path) (marker_files : list (list N)) : bool :=
  match marker_files with
  | [] => false
  | marker :: rest => if exists_ (join p marker) then true else has_marker p rest
  end.

Fixpoint first_marked (paths : list path) (marker_files : list (list N))
    : option path :=
  match paths with
  | [] => None
  | p :: rest =>
      if has_marker p marker_files then Some p else first_marked rest marker_files
  end.

(** [cwd] is [Path.cwd()] and [parents] its [parents]. *)
Definition get_project_root (cwd : path) (parents : list path)
    (marker_files : option (list (list N))) : option path :=
  let marker_files :=
    match marker_files with
    | None => str <$> [".git"; "pyproject.toml"; "setup.py"; "package.json";
                       "requirements.txt"]
    | Some marker_files => marker_files
    end in
  (* Check current directory and parents *)
  first_marked ([cwd] ++ parents) marker_files.

End ProjectRoot.

(** ** Definitions used by the proofs *)

(** *** About the matcher *)

(** The results of [Plus (Class p)]: every prefix of the run of [p]
    characters, the longest first. *)
Fixpoint class_runs (p : N → bool) (s : list N) : list state :=
  match s with
  | c :: s' => if p c then class_runs p s' ++ [(Some c, s')] else []
  | [] => []
  end.

(** The least number of characters that a match of [r] consumes. *)
Fixpoint min_len (r : regex) : nat :=
  match r with
  | Empty | Boundary => 0
  | Class _ => 1
  | Seq r1 r2 => min_len r1 + min_len r2
  | Alt r1 r2 => min_len r1 `min` min_len r2
  | Plus r1 => min_len r1
  end.

(** [st'] is [st] moved on by at least [n] characters. *)
Definition consumes (n : nat) (st st' : state) : Prop :=
  ∃ k, st'.2 = drop k st.2 ∧ (n ≤ k ≤ length st.2)%nat.

(** The character before offset [n] of [s], when [prev] is before [s]. *)
Definition prev_after (prev : option N) (s : list N) (n : nat) : option N :=
  match last (take n s) with Some c => Some c | None => prev end.

(** Patterns without [\b] do not look at the character before. *)
Fixpoint boundary_free (r : regex) : bool :=
  match r with
  | Empty | Class _ => true
  | Seq r1 r2 | Alt r1 r2 => boundary_free r1 && boundary_free r2
  | Plus r1 => boundary_free r1
  | Boundary => false
  end.

(** [s] without its prefix [w] *)
Fixpoint strip_prefix (w s : list N) : option (list N) :=
  match w with
  | [] => Some s
  | a :: w' =>
      match s with
      | c :: s' => if c =? a then strip_prefix w' s' else None
      | [] => None
      end
  end.

Section Rests.
Context {U : UnicodeData}.

(** The texts left by the matches of [r] at the start of [s]. *)
Definition rests (r : regex) (s : list N) : list (list N) :=
  snd <$> rmatch r (None, s).

(** The text left by the match that [re] reports at the start of [s]. *)
Definition first_rest (r : regex) (s : list N) : option (list N) :=
  head (rests r s).

End Rests.

(** *** Matchers that look at the text ahead only *)

(** [f s] is the text left after the match at the start of [s]. *)
Definition ahead (f : list N → option (list N)) : bool → state → option nat :=
  λ _ st, (λ t, (length st.2 - length t)%nat) <$> f st.2.

Definition pieces (f : list N → option (list N)) (s : list N) : list piece :=
  scan (ahead f) 0 None s.

Definition gsub (f : list N → option (list N)) (repl s : list N) : list N :=
  replace repl (pieces f s).

(** [f] consumes at least one character. *)
Definition proper (f : list N → option (list N)) : Prop :=
  ∀ s t, f s = Some t → ∃ w, w ≠ [] ∧ s = w ++ t.

(** No match of [f] starts anywhere in [s]. *)
Definition free (f : list N → option (list N)) (s : list N) : Prop :=
  ∀ k, f (drop k s) = None.

(** Number of matches in a scan *)
Fixpoint hits (ps : list piece) : nat :=
  match ps with
  | [] => 0
  | Lit _ :: ps' => hits ps'
  | Hit _ :: ps' => S (hits ps')
  end.

Definition cnt (f : list N → option (list N)) (s : list N) : nat :=
  hits (pieces f s).

(** *** What each pattern matches at the start of a text *)

(** [p+]: the run of [p] characters, when there is one *)
Definition run_rest (p : N → bool) (s : list N) : option (list N) :=
  match take_while p s with
  | [] => None
  | _ => Some (drop_while p s)
  end.

(** ... followed by one [q] character *)
Definition then_char (q : N → bool) (t : option (list N)) : option (list N) :=
  match t with
  | Some (c :: rest) => if q c then Some rest else None
  | _ => None
  end.

Definition not_gt (c : N) : bool := negb (is_char ">" c).

(** [<], one or more characters other than [>], and [>] *)
Definition tag_rest (s : list N) : option (list N) :=
  match s with
  | c :: s' =>
      if is_char "<" c then then_char (is_char ">") (run_rest not_gt s') else None
  | [] => None
  end.

(** The characters that the URL pattern repeats: the alternatives of
    [url_chars] that take one character. *)
Definition url_char (c : N) : bool :=
  in_range (ord "a") (ord "z") c || in_range (ord "A") (ord "Z") c
  || in_range (ord "0") (ord "9") c
  || in_range (ord "$") (ord "_") c || one_of (str "@.&+") c
  || one_of (str "!*\(\),") c.

(** The text after [http://] or [https://] *)
Definition url_body_at (s : list N) : option (list N) :=
  match strip_prefix (str "http") s with
  | Some (c :: t) =>
      if one_of (str "s") c then strip_prefix (str "://") t
      else strip_prefix (str "://") (c :: t)
  | _ => None
  end.

(** The scheme and the run of URL characters after it *)
Definition url_rest (s : list N) : option (list N) :=
  match url_body_at s with
  | Some u => run_rest url_char u
  | None => None
  end.

(** The run of URL characters at the start of [s] *)
Definition lead (s : list N) : list N := take_while url_char s.

(** [\d+%] and [\$\d+] for the digits [d] *)
Definition percent_rest (d : N → bool) (s : list N) : option (list N) :=
  then_char (is_char "%") (run_rest d s).

Definition price_rest (d : N → bool) (s : list N) : option (list N) :=
  match s with
  | c :: s' => if is_char "$" c then run_rest d s' else None
  | [] => None
  end.

(** *** Shapes of texts and of results *)

(** Every whitespace character is a single space between two other
    characters or at an end. *)
Fixpoint spaced (s : list N) : Prop :=
  match s with
  | [] => True
  | c :: s' =>
      (is_space c = true →
       c = ord " " ∧ match s' with d :: _ => is_space d = false | [] => True end)
      ∧ spaced s'
  end.

(** A span lies in [text]: it is not empty and its text is the text at
    its offset. *)
Definition occurs_in (text : list N) (sp : nat * list N) : Prop :=
  sp.2 ≠ [] ∧ take (length sp.2) (drop sp.1 text) = sp.2.

(** The second span starts where the first has ended, or later. *)
Definition precedes (a b : nat * list N) : Prop := (a.1 + length a.2 ≤ b.1)%nat.

(** The float as a multiple of the least positive float, [2^-1074] *)
Definition scaled (x : double) : Z :=
  ((if negative x then -1 else 1) * (mantissa x * 2 ^ (exponent x + 1074)))%Z.

(** The floats, each written in one way *)
Definition is_double (x : double) : Prop :=
  (0 ≤ mantissa x < 2 ^ 53)%Z ∧ (-1074 ≤ exponent x ≤ 971)%Z ∧
  (2 ^ 52 ≤ mantissa x ∨ exponent x = -1074)%Z.

(** No float is nearer to [a / b] than [x] is ([0 < b]): the distances
    [|x - a/b|] and [|y - a/b|] are compared after multiplication by
    [b * 2^1074], which makes them integers. *)
Definition nearest (x : double) (a b : Z) : Prop :=
  is_double x ∧
  ∀ y, is_double y →
    (Z.abs (scaled x * b - a * 2 ^ 1074) ≤ Z.abs (scaled y * b - a * 2 ^ 1074))%Z.

(** The number that a feature holds *)
Definition to_Q (v : value) : Q :=
  match v with VInt n => inject_Z n | VFloat x => scaled x # 2 ^ 1074 end.

(** The keys of the feature mapping, in the order of assignment *)
Definition feature_keys : list string :=
  ["word_count"; "char_count"; "sentence_count"; "all_caps_words"; "caps_ratio";
   "exclamation_count"; "question_count"; "emoji_count"; "number_count";
   "percentage_mentions"; "price_mentions"; "cta_signals"].

(** The words of [common_words] *)
Definition stopwords : list string :=
  ["the"; "and"; "or"; "but"; "in"; "on"; "at"; "to"; "for"; "of"; "with"; "by"].

Section FeatureValues.
Context {U : UnicodeData}.

Definition uppercase_count (text : list N) : Z :=
  len (filter (λ c, is_upper c = true) text).

Definition caps_ratio_of (text : list N) : value :=
  if text is [] then VInt 0
  else VFloat (divide (uppercase_count text) (len text)).

(** The mapping that [extract_features] builds *)
Definition features_of (text : list N) : gmap string value :=
  <["cta_signals" := VInt (py_sum ((λ pattern, len (findall pattern text)) <$> feature_cta_patterns))]>
  (<["price_mentions" := VInt (len (findall price text))]>
  (<["percentage_mentions" := VInt (len (findall percentage text))]>
  (<["number_count" := VInt (len (findall number text))]>
  (<["emoji_count" := VInt (len (findall emoji_pattern text))]>
  (<["question_count" := VInt (Z.of_nat (count "?" text))]>
  (<["exclamation_count" := VInt (Z.of_nat (count "!" text))]>
  (<["caps_ratio" := caps_ratio_of text]>
  (<["all_caps_words" := VInt (len (findall all_caps text))]>
  (<["sentence_count" := VInt (len (filter (λ s, strip s ≠ []) (split_on (ord ".") text)))]>
  (<["char_count" := VInt (len text)]>
  (<["word_count" := VInt (len (split text))]> ∅))))))))))).

(** A character that lowercasing leaves alone. *)
Definition lowered (c : N) : Prop := c ≠ 0x3A3 ∧ to_lower_full c = [c].

(** The lowercase mapping yields characters that it leaves alone: true of
    the Unicode tables, where no lowercase form has a lowercase form of
    its own. The capital sigma is left out because [str.lower] never
    looks it up. *)
Definition lower_stable : Prop :=
  (∀ c, c ≠ 0x3A3 → Forall lowered (to_lower_full c)) ∧
  lowered 0x3C2 ∧ lowered 0x3C3.

End FeatureValues.

(** *** The keys and phrases that the properties range over *)

(** The features that are counts *)
Definition count_keys : list string :=
  ["word_count"; "char_count"; "sentence_count"; "all_caps_words";
   "exclamation_count"; "question_count"; "emoji_count"; "number_count";
   "percentage_mentions"; "price_mentions"; "cta_signals"].

(** The phrases of [cta_patterns], group after group *)
Definition cta_phrases : list string :=
  ["shop now"; "buy today"; "get started"; "learn more"; "sign up"; "download";
   "click here"; "tap to"; "visit us"; "try free"; "order now";
   "limited time"; "act now"; "don't miss"; "hurry up"].

(** * Properties *)

(** ** The matcher *)

Section Engine.
Context {U : UnicodeData}.

Lemma iterate_class p fuel prev s :
  (length s < fuel)%nat → iterate (rmatch (Class p)) fuel (prev, s) = class_runs p s.
Proof.
  revert prev s. induction fuel as [|fuel IH]; intros prev s Hlt; [lia|].
  destruct s as [|c s]; [done|].
  cbn [iterate rmatch class_runs snd]. destruct (p c); [|done].
  cbn. rewrite decide_True by lia. rewrite app_nil_r.
  rewrite IH by (cbn in Hlt; lia). done.
Qed.

Lemma rmatch_plus_class p prev s :
  rmatch (Plus (Class p)) (prev, s) = class_runs p s.
Proof. cbn [rmatch]. apply iterate_class. cbn. lia. Qed.

Lemma iterate_consumes step n fuel st st' :
  (∀ a b, b ∈ step a → consumes n a b) →
  st' ∈ iterate step fuel st → consumes n st st'.
Proof.
  intros Hstep. revert st. induction fuel as [|fuel IH]; intros st Hin.
  { by apply elem_of_nil in Hin. }
  cbn [iterate] in Hin. apply list_elem_of_bind in Hin as (st1 & Hin & H1).
  apply Hstep in H1 as (k1 & E1 & B1).
  apply elem_of_app in Hin as [Hin | Hin].
  - destruct (decide _) as [Hlt|]; [|by apply elem_of_nil in Hin].
    apply IH in Hin as (k2 & E2 & B2).
    exists (k1 + k2)%nat. rewrite E2, E1, drop_drop. split; [done|].
    rewrite E1, length_drop in B2. lia.
  - apply list_elem_of_singleton in Hin as ->. by exists k1.
Qed.

Lemma rmatch_consumes r st st' :
  st' ∈ rmatch r st → consumes (min_len r) st st'.
Proof.
  revert st st'. induction r as [|p|r1 IH1 r2 IH2|r1 IH1 r2 IH2|r IH|];
    intros [prev s] st' Hin; cbn [rmatch min_len] in *.
  - apply list_elem_of_singleton in Hin as ->. exists 0%nat. cbn. split; [done|lia].
  - cbn in Hin. destruct s as [|c s]; [by apply elem_of_nil in Hin|].
    destruct (p c); [|by apply elem_of_nil in Hin].
    apply list_elem_of_singleton in Hin as ->. exists 1%nat. cbn. rewrite drop_0. split; [done|lia].
  - apply list_elem_of_bind in Hin as (st1 & Hin & H1).
    apply IH1 in H1 as (k1 & E1 & B1). apply IH2 in Hin as (k2 & E2 & B2).
    exists (k1 + k2)%nat. rewrite E2, E1, drop_drop. split; [done|].
    rewrite E1, length_drop in B2. lia.
  - apply elem_of_app in Hin as [Hin|Hin].
    + apply IH1 in Hin as (k & E & B). exists k. split; [done|lia].
    + apply IH2 in Hin as (k & E & B). exists k. split; [done|lia].
  - eapply iterate_consumes; [|exact Hin]. intros a b. apply IH.
  - destruct (xorb _ _); [|by apply elem_of_nil in Hin].
    apply list_elem_of_singleton in Hin as ->. exists 0%nat. cbn. split; [done|lia].
Qed.

Lemma filter_all {A} (P : A → Prop) `{!∀ x, Decision (P x)} (l : list A) :
  (∀ x, x ∈ l → P x) → filter P l = l.
Proof.
  induction l as [|x l IH]; intros Hall; [done|].
  rewrite filter_cons_True by (apply Hall; left). f_equal. apply IH.
  intros y Hy. apply Hall. by right.
Qed.

Lemma match_at_bound r ma st n :
  match_at r ma st = Some n → (min_len r ≤ n ≤ length st.2)%nat.
Proof.
  unfold match_at. intros Hh. apply head_Some_elem_of in Hh.
  apply list_elem_of_filter in Hh as [_ Hin].
  apply list_elem_of_fmap in Hin as (st' & -> & Hin).
  apply rmatch_consumes in Hin as (k & E & B). rewrite E, length_drop. lia.
Qed.

Lemma match_at_advance r ma st :
  (0 < min_len r)%nat → match_at r ma st = match_at r false st.
Proof.
  intros Hpos. unfold match_at. f_equal.
  rewrite !filter_all; [done| |].
  - intros n _. by left.
  - intros n Hin. apply list_elem_of_fmap in Hin as (st' & -> & Hin).
    apply rmatch_consumes in Hin as (k & E & B). rewrite E, length_drop.
    right. lia.
Qed.

Lemma match_at_None r st : match_at r false st = None ↔ rmatch r st = [].
Proof.
  unfold match_at. rewrite head_None.
  rewrite filter_all by (intros; by left).
  split; [apply fmap_nil_inv | by intros ->].
Qed.
End Engine.

(** ** Patterns without [\b]

    Their matches do not depend on the character before, so that they are
    described by the texts that they leave. *)

Section BoundaryFree.
Context {U : UnicodeData}.

Lemma bind_snd_ext (g1 g2 : state → list state) (l1 l2 : list state) :
  (∀ p q t, snd <$> g1 (p, t) = snd <$> g2 (q, t)) →
  snd <$> l1 = snd <$> l2 →
  snd <$> (l1 ≫= g1) = snd <$> (l2 ≫= g2).
Proof.
  intros Hg. revert l2. induction l1 as [|[p t] l1 IH]; intros [|[q t'] l2] Hl;
    try done.
  cbn in Hl. injection Hl as -> Hl.
  rewrite !bind_cons, !fmap_app. f_equal; [apply Hg | by apply IH].
Qed.

Lemma iterate_prev step1 step2 fuel p q s :
  (∀ p q t, snd <$> step1 (p, t) = snd <$> step2 (q, t)) →
  snd <$> iterate step1 fuel (p, s) = snd <$> iterate step2 fuel (q, s).
Proof.
  intros Hstep. revert p q s. induction fuel as [|fuel IH]; intros p q s; [done|].
  cbn [iterate]. apply bind_snd_ext; [|apply Hstep].
  intros p' q' t. cbn [snd]. rewrite !fmap_app. f_equal.
  destruct (decide _); [apply IH | done].
Qed.

Lemma rmatch_prev r p q s :
  boundary_free r = true → snd <$> rmatch r (p, s) = snd <$> rmatch r (q, s).
Proof.
  revert p q s. induction r as [|c|r1 IH1 r2 IH2|r1 IH1 r2 IH2|r IH|];
    intros p q s Hbf; cbn [rmatch boundary_free] in *.
  - done.
  - cbn. destruct s as [|a s]; [done|]. by destruct (c a).
  - apply andb_true_iff in Hbf as [H1 H2].
    apply bind_snd_ext; [|by apply IH1]. intros; by apply IH2.
  - apply andb_true_iff in Hbf as [H1 H2].
    rewrite !fmap_app. f_equal; [by apply IH1 | by apply IH2].
  - apply iterate_prev. intros; by apply IH.
  - done.
Qed.

Lemma rests_prev r p s :
  boundary_free r = true → snd <$> rmatch r (p, s) = rests r s.
Proof. intros. by apply rmatch_prev. Qed.

Lemma rests_seq r1 r2 s :
  boundary_free r2 = true → rests (Seq r1 r2) s = rests r1 s ≫= rests r2.
Proof.
  intros Hbf. unfold rests. cbn [rmatch].
  generalize (rmatch r1 (None, s)). intros l.
  induction l as [|[p t] l IH]; [done|].
  rewrite bind_cons, fmap_app, IH, fmap_cons, bind_cons. f_equal.
  by apply rmatch_prev.
Qed.

Lemma rests_alt r1 r2 s : rests (Alt r1 r2) s = rests r1 s ++ rests r2 s.
Proof. unfold rests. cbn [rmatch]. by rewrite fmap_app. Qed.

Lemma rests_class p s :
  rests (Class p) s = match s with c :: s' => if p c then [s'] else [] | [] => [] end.
Proof. unfold rests. cbn. destruct s as [|c s]; [done|]. by destruct (p c). Qed.

Lemma list_bind_assoc {A B C} (f : A → list B) (g : B → list C) (l : list A) :
  (l ≫= f) ≫= g = l ≫= (λ x, f x ≫= g).
Proof.
  induction l as [|x l IH]; [done|]. by rewrite !bind_cons, bind_app, IH.
Qed.

Lemma word_boundary_free w : boundary_free (Word w) = true.
Proof. induction w; [done|]. done. Qed.

Lemma rests_word_seq w r s :
  boundary_free r = true →
  rests (Seq (Word w) r) s =
    match strip_prefix (str w) s with Some t => rests r t | None => [] end.
Proof.
  intros Hbf. revert s. induction w as [|a w IH]; intros s.
  - rewrite rests_seq by done. cbn. by rewrite app_nil_r.
  - assert (Hw : boundary_free (Seq (Word w) r) = true).
    { cbn. by rewrite Hbf, word_boundary_free. }
    transitivity (rests (Chr a) s ≫= rests (Seq (Word w) r)).
    { rewrite rests_seq by done. cbn [Word].
      rewrite rests_seq by apply word_boundary_free.
      rewrite list_bind_assoc. apply list_bind_ext; [|done].
      intros t. by rewrite rests_seq. }
    unfold Chr. rewrite rests_class. cbn [str strip_prefix].
    destruct s as [|c s]; [done|]. unfold is_char.
    destruct (c =? ord a); [|done]. rewrite bind_singleton. apply IH.
Qed.
End BoundaryFree.

(** ** The scan, one step at a time *)

Section ScanSteps.

Lemma prev_after_S prev c s k :
  prev_after prev (c :: s) (S k) = prev_after (Some c) s k.
Proof.
  unfold prev_after. cbn [take]. rewrite last_cons. by destruct (last (take k s)).
Qed.

Lemma scan_skip m k prev s :
  (k ≤ length s)%nat →
  scan m k prev s = scan m 0 (prev_after prev s k) (drop k s).
Proof.
  revert k prev. induction s as [|c s IH]; intros k prev Hk.
  - cbn in Hk. by replace k with 0%nat by lia.
  - destruct k as [|k]; [done|].
    rewrite prev_after_S. cbn [drop]. rewrite <- IH by (cbn in Hk; lia). done.
Qed.

Lemma scan_hit m prev s n :
  m false (prev, s) = Some n → (0 < n ≤ length s)%nat →
  scan m 0 prev s = Hit (take n s) :: scan m 0 (prev_after prev s n) (drop n s).
Proof.
  intros Hm Hn. destruct s as [|c s]; [cbn in Hn; lia|].
  destruct n as [|n]; [lia|].
  cbn [scan]. rewrite Hm. cbn [pred]. f_equal.
  rewrite scan_skip by (cbn in Hn; lia). by rewrite prev_after_S.
Qed.

Lemma scan_miss m prev c s :
  m false (prev, c :: s) = None →
  scan m 0 prev (c :: s) = Lit c :: scan m 0 (Some c) s.
Proof. intros Hm. cbn [scan]. by rewrite Hm. Qed.

Lemma scan_end m prev : m false (prev, []) = None → scan m 0 prev [] = [].
Proof. intros Hm. cbn [scan]. by rewrite Hm. Qed.

Lemma scan_ext m1 m2 k prev s :
  (∀ ma st, m1 ma st = m2 ma st) → scan m1 k prev s = scan m2 k prev s.
Proof.
  intros Hm. revert k prev. induction s as [|c s IH]; intros k prev.
  - destruct k; [|done]. cbn [scan]. by rewrite !Hm.
  - destruct k as [|k]; [|apply IH]. cbn [scan]. rewrite !Hm.
    repeat case_match; by rewrite ?IH.
Qed.

End ScanSteps.

(** ** Scanning with a matcher that looks ahead only *)

Section Pieces.
Variable f : list N → option (list N).
Hypothesis f_proper : proper f.

Lemma scan_ahead_prev k prev s : scan (ahead f) k prev s = scan (ahead f) k None s.
Proof. destruct s as [|c s], k as [|k]; done. Qed.

Lemma pieces_nil : pieces f [] = [].
Proof.
  apply scan_end. unfold ahead. cbn. destruct (f []) as [n|] eqn:E; [|done].
  apply f_proper in E as (w & Hw & E). by destruct w.
Qed.

Lemma pieces_miss c s : f (c :: s) = None → pieces f (c :: s) = Lit c :: pieces f s.
Proof.
  intros E. unfold pieces. rewrite scan_miss; [by rewrite scan_ahead_prev|].
  unfold ahead. cbn. by rewrite E.
Qed.

Lemma pieces_hit w t :
  f (w ++ t) = Some t → pieces f (w ++ t) = Hit w :: pieces f t.
Proof.
  intros E. destruct (f_proper _ _ E) as (w' & Hw & E').
  apply app_inv_tail in E' as <-.
  unfold pieces. rewrite (scan_hit _ _ _ (length w)).
  - by rewrite scan_ahead_prev, take_app_length, drop_app_length.
  - unfold ahead. cbn. rewrite E. cbn. f_equal. rewrite length_app. lia.
  - rewrite length_app. destruct w; [done|]. cbn. lia.
Qed.

Lemma pieces_ind (P : list N → list piece → Prop) :
  P [] [] →
  (∀ c s, f (c :: s) = None → P s (pieces f s) → P (c :: s) (Lit c :: pieces f s)) →
  (∀ w t, w ≠ [] → f (w ++ t) = Some t → P t (pieces f t) →
          P (w ++ t) (Hit w :: pieces f t)) →
  ∀ s, P s (pieces f s).
Proof.
  intros Hnil Hmiss Hhit s.
  remember (length s) as k eqn:Hk. revert s Hk.
  induction (lt_wf k) as [k _ IH]. intros s ->.
  destruct (f s) as [t|] eqn:E.
  - destruct (f_proper _ _ E) as (w & Hw & ->).
    rewrite (pieces_hit _ _ E). apply Hhit; [done..|].
    eapply IH; [|done]. rewrite length_app. destruct w; [done|]. cbn. lia.
  - destruct s as [|c s]; [by rewrite pieces_nil|].
    rewrite pieces_miss by done. apply Hmiss; [done|].
    eapply IH; [|done]. cbn. lia.
Qed.
End Pieces.

Lemma pieces_ext f g s : (∀ s, f s = g s) → pieces f s = pieces g s.
Proof. intros E. apply scan_ext. intros ma st. unfold ahead. by rewrite E. Qed.

(** A pattern without [\b] that cannot match the empty string is
    scanned as the function that gives the text left by its first match. *)

Section FirstRest.
Context {U : UnicodeData}.

Lemma match_at_first_rest r ma prev s :
  boundary_free r = true → (0 < min_len r)%nat →
  match_at r ma (prev, s) = ahead (first_rest r) ma (prev, s).
Proof.
  intros Hbf Hpos. rewrite match_at_advance by done.
  unfold match_at, ahead, first_rest. rewrite filter_all by (intros; by left).
  rewrite <- (rests_prev r prev) by done. cbn [snd].
  by destruct (rmatch r (prev, s)).
Qed.

Lemma first_rest_proper r : (0 < min_len r)%nat → proper (first_rest r).
Proof.
  intros Hpos s t E. unfold first_rest, rests in E.
  apply head_Some_elem_of, list_elem_of_fmap in E as (st' & -> & Hin).
  apply rmatch_consumes in Hin as (k & E & B). cbn in E, B.
  exists (take k s). rewrite E, take_drop. split; [|done].
  intros Hnil. apply (f_equal length) in Hnil. rewrite length_take in Hnil.
  cbn in Hnil. lia.
Qed.

Lemma sub_pieces r repl s :
  boundary_free r = true → (0 < min_len r)%nat →
  sub r repl s = replace repl (pieces (first_rest r) s).
Proof.
  intros Hbf Hpos. unfold sub, pieces. f_equal. apply scan_ext.
  intros ma [prev t]. by apply match_at_first_rest.
Qed.

Lemma finditer_pieces r s :
  boundary_free r = true → (0 < min_len r)%nat →
  finditer r s = spans 0 (pieces (first_rest r) s).
Proof.
  intros Hbf Hpos. unfold finditer, pieces. f_equal. apply scan_ext.
  intros ma [prev t]. by apply match_at_first_rest.
Qed.
End FirstRest.

(** ** Runs of characters *)

Section While.
Variable p : N → bool.

Lemma take_drop_while s : take_while p s ++ drop_while p s = s.
Proof. induction s as [|c s IH]; [done|]. cbn. destruct (p c); [|done]. cbn. by rewrite IH. Qed.

Lemma take_while_nil s : take_while p s = [] → drop_while p s = s.
Proof. intros E. by rewrite <- (take_drop_while s) at 2; rewrite E. Qed.

Lemma drop_while_head s c t : drop_while p s = c :: t → p c = false.
Proof.
  induction s as [|a s IH]; [done|]. cbn. destruct (p a) eqn:E; [done|].
  by intros [= <- _].
Qed.

Lemma take_while_all s : Forall (λ c, p c = true) (take_while p s).
Proof.
  induction s as [|c s IH]; [constructor|]. cbn. destruct (p c) eqn:E; by constructor.
Qed.
End While.

Section Runs.
Context {U : UnicodeData}.

Lemma class_runs_head p s : head (snd <$> class_runs p s) = run_rest p s.
Proof.
  unfold run_rest. induction s as [|c s IH]; [done|].
  cbn [class_runs take_while drop_while]. destruct (p c); [|done].
  rewrite fmap_app. cbn.
  destruct (take_while p s) eqn:E.
  - apply head_None in IH. rewrite IH. cbn. by rewrite take_while_nil.
  - destruct (snd <$> class_runs p s); [done|]. done.
Qed.

Lemma first_rest_plus_class p s : first_rest (Plus (Class p)) s = run_rest p s.
Proof.
  unfold first_rest, rests. rewrite rmatch_plus_class. apply class_runs_head.
Qed.
End Runs.

(** ** What the patterns of [clean_text] match *)

Section TagPattern.
Context {U : UnicodeData}.

Lemma rests_plus_class_cons p c s :
  rests (Plus (Class p)) (c :: s) =
    if p c then rests (Plus (Class p)) s ++ [s] else [].
Proof.
  unfold rests. rewrite !rmatch_plus_class. cbn [class_runs].
  destruct (p c); [|done]. by rewrite fmap_app.
Qed.

Lemma rests_plus_class_nil p : rests (Plus (Class p)) [] = [].
Proof. unfold rests. by rewrite rmatch_plus_class. Qed.

Lemma rests_run_then p q s :
  (∀ c, q c = true → p c = false) →
  rests (Seq (Plus (Class p)) (Class q)) s =
    option_list (then_char q (run_rest p s)).
Proof.
  intros Hpq. rewrite rests_seq by done.
  unfold run_rest. induction s as [|c s IH].
  - by rewrite rests_plus_class_nil.
  - rewrite rests_plus_class_cons. cbn [take_while drop_while].
    destruct (p c) eqn:Ec; [|done].
    rewrite bind_app, IH, bind_singleton, rests_class.
    destruct (take_while p s) as [|a run] eqn:E.
    + cbn. rewrite take_while_nil by done. destruct s as [|d s]; [done|].
      by destruct (q d).
    + rewrite <- (take_drop_while p s), E. cbn.
      pose proof (take_while_all p s) as Hall. rewrite E in Hall.
      apply Forall_cons_1 in Hall as [Ha _].
      destruct (q a) eqn:Eq; [apply Hpq in Eq; congruence|].
      by rewrite app_nil_r.
Qed.

Lemma rests_chr_seq a r s :
  boundary_free r = true →
  rests (Seq (Chr a) r) s =
    match s with c :: s' => if is_char a c then rests r s' else [] | [] => [] end.
Proof.
  intros Hbf. rewrite rests_seq by done. unfold Chr. rewrite rests_class.
  destruct s as [|c s]; [done|]. destruct (is_char a c); [|done].
  by rewrite bind_singleton.
Qed.

Lemma first_rest_html_tag s : first_rest html_tag s = tag_rest s.
Proof.
  unfold first_rest, html_tag, tag_rest. rewrite rests_chr_seq by done.
  destruct s as [|c s]; [done|]. destruct (is_char "<" c); [|done].
  unfold Chr. rewrite rests_run_then.
  - by destruct (then_char _ _).
  - intros d Hd. unfold not_gt. by rewrite Hd.
Qed.
End TagPattern.

Section UrlPattern.
Context {U : UnicodeData}.

Lemma iterate_greedy (step : state → list state) (p : N → bool) fuel prev
    (s : list N) :
  (∀ prev c (s : list N), head (snd <$> step (prev, c :: s)) = if p c then Some s else None) →
  (∀ prev, step (prev, []) = []) →
  (length s < fuel)%nat →
  head (snd <$> iterate step fuel (prev, s)) = run_rest p s.
Proof.
  intros Hstep Hnil. unfold run_rest.
  revert fuel prev. induction s as [|c s IH]; intros fuel prev Hlt.
  - destruct fuel; [done|]. cbn [iterate]. by rewrite Hnil.
  - destruct fuel as [|fuel]; [lia|]. cbn [iterate take_while drop_while].
    specialize (Hstep prev c s).
    destruct (step (prev, c :: s)) as [|[p' t] l]; cbn in Hstep.
    + by destruct (p c).
    + destruct (p c); [|done]. injection Hstep as ->.
      rewrite bind_cons. cbn [snd]. rewrite decide_True by (cbn; lia).
      rewrite !fmap_app. cbn.
      assert (Hlt' : (length s < fuel)%nat) by (cbn in Hlt; lia).
      specialize (IH fuel p' Hlt').
      destruct (snd <$> iterate step fuel (p', s)) as [|x l'].
      * cbn in *. destruct (take_while p s) eqn:E; [|done].
        by rewrite take_while_nil.
      * cbn in *. destruct (take_while p s); [done|]. done.
Qed.

Lemma rests_url_chars c s :
  head (rests url_chars (c :: s)) = if url_char c then Some s else None.
Proof.
  unfold url_chars. cbn [AnyOf]. rewrite !rests_alt, !rests_class.
  rewrite rests_chr_seq by done. unfold url_char.
  destruct (in_range (ord "a") (ord "z") c || in_range (ord "A") (ord "Z") c);
    [done|].
  destruct (in_range (ord "0") (ord "9") c); [done|].
  destruct (in_range (ord "$") (ord "_") c) eqn:E3; [done|].
  destruct (one_of (str "@.&+") c); [done|].
  destruct (one_of (str "!*\(\),") c); [done|].
  cbn. destruct (is_char "%" c) eqn:E; [|done].
  apply N.eqb_eq in E as ->. done.
Qed.

Lemma first_rest_plus_url_chars s :
  first_rest (Plus url_chars) s = run_rest url_char s.
Proof.
  unfold first_rest, rests. cbn [rmatch].
  apply iterate_greedy; [| |cbn; lia].
  - intros prev c t. rewrite rests_prev by done. apply rests_url_chars.
  - intros prev. done.
Qed.

Lemma first_rest_url s : first_rest url s = url_rest s.
Proof.
  unfold first_rest, url, url_rest, url_body_at.
  rewrite rests_word_seq by done.
  destruct (strip_prefix (str "http") s) as [t|]; [|done].
  rewrite rests_seq by done. unfold Opt. rewrite rests_alt, rests_class, bind_app.
  replace (rests Empty t) with [t] by done. rewrite bind_singleton.
  rewrite !rests_word_seq by done.
  destruct t as [|c t]; [done|].
  destruct (one_of (str "s") c) eqn:E.
  - rewrite bind_singleton, rests_word_seq by done.
    assert (strip_prefix (str "://") (c :: t) = None) as ->.
    { unfold one_of in E. apply bool_decide_eq_true in E.
      apply list_elem_of_singleton in E as ->. done. }
    rewrite app_nil_r.
    destruct (strip_prefix (str "://") t) as [u|]; [|done].
    apply first_rest_plus_url_chars.
  - cbn [mbind list_bind app].
    destruct (strip_prefix (str "://") (c :: t)) as [u|]; [|done].
    apply first_rest_plus_url_chars.
Qed.
End UrlPattern.

(** ** Substitution, and texts without a match *)

Section Gsub.
Variable f : list N → option (list N).
Hypothesis f_proper : proper f.
Variable repl : list N.

Lemma gsub_nil : gsub f repl [] = [].
Proof. unfold gsub. by rewrite pieces_nil. Qed.

Lemma gsub_miss c s : f (c :: s) = None → gsub f repl (c :: s) = c :: gsub f repl s.
Proof. intros E. unfold gsub. by rewrite pieces_miss. Qed.

Lemma gsub_hit w t : f (w ++ t) = Some t → gsub f repl (w ++ t) = repl ++ gsub f repl t.
Proof. intros E. unfold gsub. by rewrite pieces_hit. Qed.

Lemma gsub_ind (P : list N → list N → Prop) :
  P [] [] →
  (∀ c s, f (c :: s) = None → P s (gsub f repl s) → P (c :: s) (c :: gsub f repl s)) →
  (∀ w t, w ≠ [] → f (w ++ t) = Some t → P t (gsub f repl t) →
          P (w ++ t) (repl ++ gsub f repl t)) →
  ∀ s, P s (gsub f repl s).
Proof.
  intros Hnil Hmiss Hhit s. unfold gsub.
  by apply (pieces_ind f f_proper (λ s ps, P s (replace repl ps))).
Qed.

Lemma elem_of_gsub x s : x ∈ gsub f repl s → x ∈ s ∨ x ∈ repl.
Proof.
  apply (gsub_ind (λ s out, x ∈ out → x ∈ s ∨ x ∈ repl)).
  - by left.
  - intros c t _ IH [->|Hin]%elem_of_cons; [left; by left|].
    destruct (IH Hin); [left; by right | by right].
  - intros w t _ _ IH [Hin|Hin]%elem_of_app; [by right|].
    destruct (IH Hin); [left; apply elem_of_app; by right | by right].
Qed.

Lemma free_nil : free f [].
Proof.
  intros k. rewrite drop_nil. destruct (f []) eqn:E; [|done].
  apply f_proper in E as (w & Hw & E). by destruct w.
Qed.

Lemma free_cons c s : f (c :: s) = None → free f s → free f (c :: s).
Proof. intros E Hs [|k]; [done | apply Hs]. Qed.

Lemma free_cons_inv c s : free f (c :: s) → f (c :: s) = None ∧ free f s.
Proof. intros Hs. split; [apply (Hs 0%nat) | intros k; apply (Hs (S k))]. Qed.

Lemma free_drop k s : free f s → free f (drop k s).
Proof. intros Hs j. rewrite drop_drop. apply Hs. Qed.

Lemma free_app_r w t : free f (w ++ t) → free f t.
Proof. intros Hs. rewrite <- (drop_app_length w t). by apply free_drop. Qed.

Lemma free_pieces s : free f s → pieces f s = Lit <$> s.
Proof.
  induction s as [|c s IH]; intros Hs; [by rewrite pieces_nil|].
  apply free_cons_inv in Hs as [E Hs]. rewrite pieces_miss by done.
  by rewrite IH.
Qed.

Lemma free_gsub s : free f s → gsub f repl s = s.
Proof.
  intros Hs. unfold gsub. rewrite free_pieces by done.
  clear. induction s as [|c s IH]; [done|]. cbn. unfold replace in IH. cbn in IH.
  by rewrite IH.
Qed.
End Gsub.

(** ** Texts without tags

    A [<] that is left in place is followed at once by [>], or by no [>]
    at all; removing matches of a pattern that cannot start at [>] keeps
    it so. *)

Section TagFree.

Lemma is_char_true a c : is_char a c = true ↔ c = ord a.
Proof. apply N.eqb_eq. Qed.

Lemma run_rest_proper p : proper (run_rest p).
Proof.
  intros s t E. unfold run_rest in E.
  destruct (take_while p s) as [|c run] eqn:Etw; [done|]. injection E as <-.
  exists (c :: run). split; [done|]. by rewrite <- Etw, take_drop_while.
Qed.

Lemma then_char_Some q o rest :
  then_char q o = Some rest → ∃ c, o = Some (c :: rest) ∧ q c = true.
Proof.
  destruct o as [[|c t]|]; try done. cbn. destruct (q c) eqn:E; [|done].
  intros [= <-]. by exists c.
Qed.

Lemma tag_rest_Some s t :
  tag_rest s = Some t →
  ∃ run, run ≠ [] ∧ Forall (λ c, not_gt c = true) run ∧
         s = ord "<" :: run ++ ord ">" :: t.
Proof.
  destruct s as [|c s]; [done|]. cbn. destruct (is_char "<" c) eqn:Ec; [|done].
  apply is_char_true in Ec as ->.
  intros (d & E & ->%is_char_true)%then_char_Some.
  unfold run_rest in E. destruct (take_while not_gt s) as [|a run] eqn:Etw; [done|].
  injection E as E. exists (a :: run). split; [done|]. split.
  - rewrite <- Etw. apply take_while_all.
  - by rewrite <- E, <- Etw, take_drop_while.
Qed.

Lemma tag_rest_proper : proper tag_rest.
Proof.
  intros s t (run & _ & _ & ->)%tag_rest_Some.
  exists (ord "<" :: run ++ [ord ">"]). split; [done|].
  cbn. by rewrite <- app_assoc.
Qed.

Lemma tag_rest_other c s : is_char "<" c = false → tag_rest (c :: s) = None.
Proof. intros E. cbn. by rewrite E. Qed.

Lemma then_gt_None s :
  ord ">" ∉ s → then_char (is_char ">") (run_rest not_gt s) = None.
Proof.
  intros Hs. unfold run_rest. destruct (take_while not_gt s) eqn:Etw; [done|].
  destruct (drop_while not_gt s) as [|e t] eqn:Edw; [done|]. exfalso.
  pose proof (drop_while_head _ _ _ _ Edw) as He.
  unfold not_gt in He. apply negb_false_iff, is_char_true in He as ->.
  apply Hs. rewrite <- (take_drop_while not_gt s), Edw.
  apply elem_of_app. right. by left.
Qed.

Lemma then_gt_None_inv s :
  then_char (is_char ">") (run_rest not_gt s) = None →
  s = [] ∨ (∃ s', s = ord ">" :: s') ∨ ord ">" ∉ s.
Proof.
  destruct s as [|d s]; [by left|]. intros E. right.
  destruct (not_gt d) eqn:Ed.
  - right. unfold run_rest in E. cbn [take_while] in E. rewrite Ed in E.
    destruct (drop_while not_gt (d :: s)) as [|e t] eqn:Edw.
    + rewrite <- (take_drop_while not_gt (d :: s)), Edw, app_nil_r.
      intros Hin. pose proof (take_while_all not_gt (d :: s)) as Hall.
      rewrite Forall_forall in Hall. apply Hall in Hin. done.
    + pose proof (drop_while_head _ _ _ _ Edw) as He. cbn in E.
      unfold not_gt in He. apply negb_false_iff in He. by rewrite He in E.
  - left. unfold not_gt in Ed. apply negb_false_iff, is_char_true in Ed as ->.
    by exists s.
Qed.

Lemma free_tag_app pre s :
  ord "<" ∉ pre → free tag_rest s → free tag_rest (pre ++ s).
Proof.
  induction pre as [|c pre IH]; intros Hpre Hs; [done|].
  apply not_elem_of_cons in Hpre as [Hc Hpre].
  apply free_cons; [|by apply IH]. apply tag_rest_other.
  destruct (is_char "<" c) eqn:E; [|done]. by apply is_char_true in E.
Qed.

(** Substituting for a pattern that cannot start at [>] leaves no tag,
    when every position the pattern passes over is not the start of
    one. *)
Lemma gsub_tag_free f repl s :
  proper f →
  (∀ t, f (ord ">" :: t) = None) →
  ord "<" ∉ repl → ord ">" ∉ repl →
  (∀ k, f (drop k s) = None → tag_rest (drop k s) = None) →
  free tag_rest (gsub f repl s).
Proof.
  intros Hf Hgt Hlt_repl Hgt_repl.
  apply (gsub_ind f Hf repl (λ s out,
    (∀ k, f (drop k s) = None → tag_rest (drop k s) = None) →
    free tag_rest out)).
  - intros _. apply free_nil, tag_rest_proper.
  - intros c t E IH Hc. apply free_cons.
    2:{ apply IH. intros k. apply (Hc (S k)). }
    specialize (Hc 0%nat E). cbn [drop] in Hc.
    destruct (is_char "<" c) eqn:Ec; [|by apply tag_rest_other].
    cbn in Hc |- *. rewrite Ec in Hc |- *.
    apply then_gt_None_inv in Hc as [->|[[t' ->]|Hc]].
    + by rewrite gsub_nil.
    + by rewrite gsub_miss.
    + apply then_gt_None. intros [Hin|Hin]%elem_of_gsub; done.
  - intros w t _ E IH Hc. apply free_tag_app; [done|]. apply IH.
    intros k. specialize (Hc (length w + k)%nat).
    by rewrite <- drop_drop, drop_app_length in Hc.
Qed.

Lemma strip_tags_free s : free tag_rest (gsub tag_rest [] s).
Proof.
  apply gsub_tag_free.
  - apply tag_rest_proper.
  - intros t. reflexivity.
  - apply not_elem_of_nil.
  - apply not_elem_of_nil.
  - done.
Qed.
End TagFree.

(** ** Texts without URLs *)

Section UrlFree.

Lemma take_while_app_all p w x :
  Forall (λ c, p c = true) w → take_while p (w ++ x) = w ++ take_while p x.
Proof.
  induction 1 as [|c w Hc _ IH]; [done|]. cbn. by rewrite Hc, IH.
Qed.

Lemma drop_while_app_all p w x :
  Forall (λ c, p c = true) w → drop_while p (w ++ x) = drop_while p x.
Proof.
  induction 1 as [|c w Hc _ IH]; [done|]. cbn. by rewrite Hc, IH.
Qed.

Lemma take_while_app_prefix p a x : take_while p a `prefix_of` take_while p (a ++ x).
Proof.
  induction a as [|c a IH]; [apply prefix_nil|]. cbn.
  destruct (p c); [by apply prefix_cons | apply prefix_nil].
Qed.

Lemma strip_prefix_Some w s t : strip_prefix w s = Some t ↔ s = w ++ t.
Proof.
  revert s. induction w as [|a w IH]; intros s; cbn.
  - split; [by intros [= ->] | by intros ->].
  - destruct s as [|c s]; [done|]. destruct (N.eqb_spec c a) as [->|Hne].
    + rewrite IH. split; [by intros -> | by intros [= ->]].
    + split; [done | by intros [= -> _]].
Qed.

Lemma url_body_at_Some s u :
  url_body_at s = Some u ↔ s = str "http://" ++ u ∨ s = str "https://" ++ u.
Proof.
  split.
  - unfold url_body_at.
    destruct (strip_prefix (str "http") s) as [[|c t]|] eqn:E; try done.
    apply strip_prefix_Some in E as ->.
    destruct (one_of (str "s") c) eqn:Ec.
    + apply bool_decide_eq_true, list_elem_of_singleton in Ec as ->.
      intros ->%strip_prefix_Some. by right.
    + intros ->%strip_prefix_Some. by left.
  - by intros [-> | ->].
Qed.

Lemma url_rest_Some s t :
  url_rest s = Some t →
  ∃ scheme d u,
    (scheme = str "http://" ∨ scheme = str "https://") ∧
    url_char d = true ∧ s = scheme ++ d :: u ∧ t = drop_while url_char u.
Proof.
  unfold url_rest. destruct (url_body_at s) as [u|] eqn:E; [|done].
  unfold run_rest. destruct u as [|d u]; [done|]. cbn.
  destruct (url_char d) eqn:Ed; [|done]. intros [= <-].
  apply url_body_at_Some in E as [-> | ->].
  - exists (str "http://"), d, u. split_and!; [by left|done..].
  - exists (str "https://"), d, u. split_and!; [by right|done..].
Qed.

Lemma url_rest_shape scheme d u :
  scheme = str "http://" ∨ scheme = str "https://" →
  url_char d = true →
  url_rest (scheme ++ d :: u) = Some (drop_while url_char u).
Proof.
  intros Hs Hd. unfold url_rest.
  assert (url_body_at (scheme ++ d :: u) = Some (d :: u)) as ->.
  { apply url_body_at_Some. destruct Hs as [-> | ->]; [by left | by right]. }
  unfold run_rest. cbn. by rewrite Hd.
Qed.

Lemma scheme_url_chars scheme :
  scheme = str "http://" ∨ scheme = str "https://" →
  Forall (λ c, url_char c = true) scheme.
Proof. intros [-> | ->]; repeat constructor. Qed.

Lemma url_rest_proper : proper url_rest.
Proof.
  intros s t (scheme & d & u & Hs & Hd & -> & ->)%url_rest_Some.
  exists (scheme ++ d :: take_while url_char u). split.
  - by destruct scheme.
  - by rewrite <- app_assoc, <- app_comm_cons, take_drop_while.
Qed.

(** Whether a URL starts at a position is decided by the run of URL
    characters that starts there. *)
Lemma url_rest_mono a b :
  lead a `prefix_of` lead b → url_rest b = None → url_rest a = None.
Proof.
  intros [k Hk] Hb. destruct (url_rest a) as [t|] eqn:Ea; [exfalso|done].
  apply url_rest_Some in Ea as (scheme & d & u & Hs & Hd & -> & ->).
  unfold lead in Hk.
  rewrite take_while_app_all in Hk by by apply scheme_url_chars.
  cbn in Hk. rewrite Hd in Hk.
  rewrite <- (take_drop_while url_char b), Hk in Hb.
  rewrite <- !app_assoc, <- !app_comm_cons in Hb.
  by rewrite url_rest_shape in Hb.
Qed.

Lemma url_rest_other d s : url_char d = false → url_rest (d :: s) = None.
Proof.
  intros Hd. destruct (url_rest (d :: s)) as [t|] eqn:E; [exfalso|done].
  apply url_rest_Some in E as (scheme & d' & u & [-> | ->] & _ & [= -> _] & _);
    done.
Qed.

Lemma free_url_app pre s :
  Forall (λ c, url_char c = false) pre → free url_rest s → free url_rest (pre ++ s).
Proof.
  induction 1 as [|c pre Hc _ IH]; intros Hs; [done|].
  apply free_cons; [by apply url_rest_other | by apply IH].
Qed.

Lemma gsub_url_free f repl s :
  proper f →
  Forall (λ c, url_char c = false) repl →
  (∀ w t, f (w ++ t) = Some t → lead (repl ++ gsub f repl t) = []) →
  (∀ k, f (drop k s) = None → url_rest (drop k s) = None) →
  free url_rest (gsub f repl s) ∧ lead (gsub f repl s) `prefix_of` lead s.
Proof.
  intros Hf Hrepl Hhit.
  apply (gsub_ind f Hf repl (λ s out,
    (∀ k, f (drop k s) = None → url_rest (drop k s) = None) →
    free url_rest out ∧ lead out `prefix_of` lead s)).
  - intros _. split; [apply free_nil, url_rest_proper | done].
  - intros c t E IH Hc.
    destruct IH as [IH1 IH2]; [intros k; apply (Hc (S k))|].
    assert (lead (c :: gsub f repl t) `prefix_of` lead (c :: t)) as Hp.
    { unfold lead in *. cbn. destruct (url_char c); [by apply prefix_cons|apply prefix_nil]. }
    split; [|done]. apply free_cons; [|done].
    apply (url_rest_mono _ (c :: t)); [done|]. by apply (Hc 0%nat).
  - intros w t _ E IH Hc. split.
    + apply free_url_app; [done|]. apply IH.
      intros k. specialize (Hc (length w + k)%nat).
      by rewrite <- drop_drop, drop_app_length in Hc.
    + rewrite (Hhit w t E). apply prefix_nil.
Qed.

Lemma strip_urls_free s : free url_rest (gsub url_rest [] s).
Proof.
  apply gsub_url_free; [apply url_rest_proper|constructor| |done].
  intros w t (scheme & d & u & _ & _ & _ & ->)%url_rest_Some. cbn [app].
  destruct (drop_while url_char u) as [|e t] eqn:E.
  - by rewrite gsub_nil by apply url_rest_proper.
  - apply drop_while_head in E.
    rewrite gsub_miss by (apply url_rest_proper || by apply url_rest_other).
    unfold lead. cbn. by rewrite E.
Qed.

Lemma strip_urls_tag_free s :
  free tag_rest s → free tag_rest (gsub url_rest [] s).
Proof.
  intros Hs. apply gsub_tag_free.
  - apply url_rest_proper.
  - intros t. reflexivity.
  - apply not_elem_of_nil.
  - apply not_elem_of_nil.
  - intros k _. apply Hs.
Qed.
End UrlFree.

(** The matchers of [clean_text] consume at least one character. *)
Create HintDb proper_rest discriminated.
#[global] Hint Resolve run_rest_proper tag_rest_proper url_rest_proper : proper_rest.

(** ** Whitespace: collapsing and trimming *)

Section Whitespace.
Local Abbreviation ws := (run_rest is_space).

Lemma one_of_false cs c : one_of cs c = false → c ∉ cs.
Proof. apply bool_decide_eq_false. Qed.

Lemma collapse_tag_free s :
  free tag_rest s → free tag_rest (gsub ws (str " ") s).
Proof.
  intros Hs. apply gsub_tag_free.
  - auto with proper_rest.
  - intros t. reflexivity.
  - by apply one_of_false.
  - by apply one_of_false.
  - intros k _. apply Hs.
Qed.

Lemma collapse_url_free s :
  free url_rest s → free url_rest (gsub ws (str " ") s).
Proof.
  intros Hs. apply gsub_url_free.
  - auto with proper_rest.
  - by repeat constructor.
  - done.
  - intros k _. apply Hs.
Qed.

Lemma ws_None c s : ws (c :: s) = None ↔ is_space c = false.
Proof. unfold run_rest. cbn. by destruct (is_space c). Qed.

Lemma ws_rest_head s t :
  ws s = Some t → match t with d :: _ => is_space d = false | [] => True end.
Proof.
  unfold run_rest. destruct (take_while is_space s); [done|]. intros [= <-].
  destruct (drop_while is_space s) eqn:E; [done|]. by apply drop_while_head in E.
Qed.

Lemma spaced_collapse s : spaced (gsub ws (str " ") s).
Proof.
  apply (gsub_ind ws (run_rest_proper _) (str " ") (λ _ out, spaced out)).
  - done.
  - intros c t E%ws_None IH. cbn. split; [congruence | done].
  - intros w t _ E%ws_rest_head IH. cbn. split; [|done]. intros _. split; [done|].
    destruct t as [|d t]; [by rewrite gsub_nil by auto with proper_rest|].
    by rewrite gsub_miss by (auto with proper_rest || by apply ws_None).
Qed.

Lemma collapse_spaced s : spaced s → gsub ws (str " ") s = s.
Proof.
  induction s as [|c s IH]; intros Hs.
  - by rewrite gsub_nil by auto with proper_rest.
  - destruct Hs as [Hc Hs]. destruct (is_space c) eqn:Ec.
    + destruct Hc as [-> Hd]; [done|].
      rewrite (gsub_hit ws (run_rest_proper _) _ [ord " "] s).
      * by rewrite IH.
      * unfold run_rest. cbn. destruct s as [|d s]; [done|]. cbn. by rewrite Hd.
    + rewrite gsub_miss by (auto with proper_rest || by apply ws_None).
      by rewrite IH.
Qed.

Lemma spaced_app a b : spaced (a ++ b) → spaced a ∧ spaced b.
Proof.
  induction a as [|c a IH]; [done|]. cbn. intros [Hc Hs].
  destruct (IH Hs) as [Ha Hb]. split; [|done]. split; [|done].
  intros Ec. destruct (Hc Ec) as [-> Hd]. split; [done|]. by destruct a.
Qed.

Lemma lstrip_factor s : s = take_while is_space s ++ lstrip s.
Proof. unfold lstrip. by rewrite take_drop_while. Qed.

Lemma rstrip_factor s : s = rstrip s ++ reverse (take_while is_space (reverse s)).
Proof.
  unfold rstrip. rewrite <- reverse_app, take_drop_while.
  by rewrite reverse_involutive.
Qed.

Lemma strip_factor s : ∃ pre post, s = pre ++ strip s ++ post.
Proof.
  exists (take_while is_space s), (reverse (take_while is_space (reverse (lstrip s)))).
  unfold strip. by rewrite <- rstrip_factor, <- lstrip_factor.
Qed.

Lemma spaced_strip s : spaced s → spaced (strip s).
Proof.
  destruct (strip_factor s) as (pre & post & E). rewrite E at 1.
  intros [_ Hs]%spaced_app. by apply spaced_app in Hs as [Hs _].
Qed.

Lemma drop_while_idem p s : drop_while p (drop_while p s) = drop_while p s.
Proof.
  destruct (drop_while p s) as [|e t] eqn:E; [done|].
  apply drop_while_head in E. cbn. by rewrite E.
Qed.

Lemma strip_idem s : strip (strip s) = strip s.
Proof.
  unfold strip.
  assert (lstrip (rstrip (lstrip s)) = rstrip (lstrip s)) as ->.
  { pose proof (rstrip_factor (lstrip s)) as E.
    destruct (rstrip (lstrip s)) as [|e t] eqn:Er; [done|].
    unfold lstrip at 1. cbn.
    destruct (lstrip s) as [|e' t'] eqn:El; [done|].
    injection E as -> _. unfold lstrip in El. apply drop_while_head in El.
    by rewrite El. }
  unfold rstrip. by rewrite reverse_involutive, drop_while_idem.
Qed.
End Whitespace.

Section StripFree.
Variable f : list N → option (list N).
Hypothesis f_proper : proper f.
Hypothesis f_mono : ∀ a x, f (a ++ x) = None → f a = None.

Lemma free_app_l a x : free f (a ++ x) → free f a.
Proof.
  intros Hs k. destruct (decide (k ≤ length a)%nat) as [Hk|Hk].
  - apply (f_mono _ x). rewrite <- drop_app_le by done. apply Hs.
  - rewrite drop_ge by lia. apply (free_nil f f_proper 0%nat).
Qed.

Lemma free_strip s : free f s → free f (strip s).
Proof.
  destruct (strip_factor s) as (pre & post & E). rewrite E at 1.
  intros Hs%free_app_r. by apply free_app_l in Hs.
Qed.
End StripFree.

Lemma tag_rest_shape run x :
  run ≠ [] → Forall (λ c, not_gt c = true) run →
  tag_rest (ord "<" :: run ++ ord ">" :: x) = Some x.
Proof.
  intros Hne Hrun. cbn. unfold run_rest.
  rewrite take_while_app_all, drop_while_app_all by done.
  cbn. rewrite app_nil_r. by destruct run.
Qed.

Lemma tag_rest_app a x : tag_rest (a ++ x) = None → tag_rest a = None.
Proof.
  intros E. destruct (tag_rest a) as [t|] eqn:Ea; [exfalso|done].
  apply tag_rest_Some in Ea as (run & Hne & Hrun & ->).
  rewrite <- app_comm_cons, <- app_assoc, <- app_comm_cons in E.
  by rewrite tag_rest_shape in E.
Qed.

Lemma url_rest_app a x : url_rest (a ++ x) = None → url_rest a = None.
Proof. apply url_rest_mono, take_while_app_prefix. Qed.

(** ** [clean_text] *)

Section Clean.
Context {U : UnicodeData}.

Lemma sub_html_tag repl s : sub html_tag repl s = gsub tag_rest repl s.
Proof.
  rewrite sub_pieces; [|done|cbn; lia]. unfold gsub. f_equal.
  apply pieces_ext, first_rest_html_tag.
Qed.

Lemma sub_url repl s : sub url repl s = gsub url_rest repl s.
Proof.
  rewrite sub_pieces; [|done|cbn; lia]. unfold gsub. f_equal.
  apply pieces_ext, first_rest_url.
Qed.

Lemma sub_whitespace repl s : sub whitespace repl s = gsub (run_rest is_space) repl s.
Proof.
  rewrite sub_pieces; [|done|cbn; lia]. unfold gsub. f_equal.
  apply pieces_ext. intros t. apply first_rest_plus_class.
Qed.

Lemma clean_text_plain text :
  clean_text text false =
    if text is [] then []
    else strip (gsub (run_rest is_space) (str " ")
                  (gsub url_rest [] (gsub tag_rest [] text))).
Proof.
  unfold clean_text. destruct text; [done|].
  by rewrite sub_html_tag, sub_url, sub_whitespace.
Qed.

Lemma clean_text_tidy text :
  let c := clean_text text false in
  free tag_rest c ∧ free url_rest c ∧ spaced c ∧ strip c = c.
Proof.
  cbn. rewrite clean_text_plain. destruct text as [|a text].
  { split_and!; try done; apply free_nil; auto with proper_rest. }
  generalize (a :: text). clear. intros text. split_and!.
  - apply free_strip; [auto with proper_rest | apply tag_rest_app |].
    apply collapse_tag_free, strip_urls_tag_free, strip_tags_free.
  - apply free_strip; [auto with proper_rest | apply url_rest_app |].
    apply collapse_url_free, strip_urls_free.
  - apply spaced_strip, spaced_collapse.
  - apply strip_idem.
Qed.

Lemma spans_lits pos s : spans pos (Lit <$> s) = [].
Proof. revert pos. induction s as [|c s IH]; intros pos; [done|]. cbn. apply IH. Qed.

Lemma free_search r f s :
  boundary_free r = true → (0 < min_len r)%nat →
  (∀ t, first_rest r t = f t) → proper f →
  free f s →
  search r s = None ∧ ∀ k, rmatch r (last (take k s), drop k s) = [].
Proof.
  intros Hbf Hpos Hf Hproper Hs. split.
  - unfold search. rewrite finditer_pieces by done.
    rewrite (pieces_ext _ f) by done.
    by rewrite free_pieces, spans_lits.
  - intros k. specialize (Hs k). rewrite <- Hf in Hs.
    unfold first_rest in Hs. apply head_None in Hs.
    rewrite <- (rests_prev r (last (take k s))) in Hs by done.
    by apply fmap_nil_inv in Hs.
Qed.

(** C2: with emoji removal off, the cleaned text holds no HTML tag and no
    URL: a search for either pattern finds nothing, and at no offset of
    the cleaned text does either pattern match in any way. *)
Theorem clean_text_no_markup text :
  let c := clean_text text false in
  (search html_tag c = None ∧ search url c = None) ∧
  ∀ k, rmatch html_tag (last (take k c), drop k c) = [] ∧
       rmatch url (last (take k c), drop k c) = [].
Proof.
  intros c. destruct (clean_text_tidy text) as (Htag & Hurl & _).
  destruct (free_search html_tag tag_rest c) as [S1 M1];
    [done | cbn; lia | apply first_rest_html_tag | auto with proper_rest | done |].
  destruct (free_search url url_rest c) as [S2 M2];
    [done | cbn; lia | apply first_rest_url | auto with proper_rest | done |].
  done.
Qed.

(** The same in words of the text alone: the cleaned text has no [<],
    characters other than [>], [>] in it, and no scheme followed by a URL
    character. *)
Corollary clean_text_no_markup_shape text pre body post d :
  let c := clean_text text false in
  (body ≠ [] → ord ">" ∉ body → c ≠ pre ++ ord "<" :: body ++ ord ">" :: post) ∧
  (url_char d = true →
   c ≠ pre ++ str "http://" ++ d :: post ∧ c ≠ pre ++ str "https://" ++ d :: post).
Proof.
  intros c. destruct (clean_text_tidy text) as (Htag & Hurl & _). fold c in Htag, Hurl.
  split.
  - intros Hne Hgt E. specialize (Htag (length pre)).
    rewrite E, drop_app_length, tag_rest_shape in Htag; [done..|].
    apply Forall_forall. intros x Hx. unfold not_gt.
    apply negb_true_iff. destruct (is_char ">" x) eqn:Ex; [|done].
    by apply is_char_true in Ex as ->.
  - intros Hd. split; intros E; specialize (Hurl (length pre));
      rewrite E, drop_app_length in Hurl.
    + rewrite (url_rest_shape (str "http://")) in Hurl by (done || by left). done.
    + rewrite (url_rest_shape (str "https://")) in Hurl by (done || by right). done.
Qed.

(** C9, amended: with emoji removal off, cleaning a cleaned text changes
    nothing. *)
Theorem clean_text_idempotent text :
  clean_text (clean_text text false) false = clean_text text false.
Proof.
  destruct (clean_text_tidy text) as (Htag & Hurl & Hsp & Hstrip).
  rewrite (clean_text_plain (clean_text text false)).
  destruct (clean_text text false) as [|a c] eqn:E; [done|].
  rewrite (free_gsub tag_rest tag_rest_proper) by done.
  rewrite (free_gsub url_rest url_rest_proper) by done.
  by rewrite collapse_spaced.
Qed.
End Clean.

(** C9 fails with emoji removal on: the URL pattern does not match
    [http://] followed by an emoji, the emoji is removed after the URLs,
    and the URL that this leaves is removed by the second cleaning. *)
Lemma clean_text_emoji_exposes_url :
  let text := str "http://" ++ [0x1F600] ++ str "a" in
  clean_text (U := AsciiData.data) text true = str "http://a" ∧
  clean_text (U := AsciiData.data)
    (clean_text (U := AsciiData.data) text true) true = [] ∧
  clean_text (U := AsciiData.data)
    (clean_text (U := AsciiData.data) text true) true
    ≠ clean_text (U := AsciiData.data) text true.
Proof. vm_compute. split_and!; done. Qed.

(** ** Counting digit runs, percentages and prices *)

Section Counting.
Variable d : N → bool.
Hypothesis d_percent : d (ord "%") = false.
Hypothesis d_dollar : d (ord "$") = false.

Lemma length_spans pos ps : length (spans pos ps) = hits ps.
Proof.
  revert pos. induction ps as [|[c|m] ps IH]; intros pos; [done|apply IH|].
  cbn. by rewrite IH.
Qed.

Lemma cnt_nil f : proper f → cnt f [] = 0%nat.
Proof. intros Hf. unfold cnt. by rewrite pieces_nil. Qed.

Lemma cnt_miss f c s : proper f → f (c :: s) = None → cnt f (c :: s) = cnt f s.
Proof. intros Hf E. unfold cnt. by rewrite pieces_miss. Qed.

Lemma cnt_hit f s t : proper f → f s = Some t → cnt f s = S (cnt f t).
Proof.
  intros Hf E. destruct (Hf _ _ E) as (w & _ & ->). unfold cnt.
  by rewrite pieces_hit.
Qed.

Lemma percent_rest_proper : proper (percent_rest d).
Proof.
  intros s t (c & E & _)%then_char_Some.
  apply run_rest_proper in E as (w & Hw & ->).
  exists (w ++ [c]). split; [by destruct w | by rewrite <- app_assoc].
Qed.

Lemma price_rest_proper : proper (price_rest d).
Proof.
  intros [|c s] t; [done|]. cbn. destruct (is_char "$" c); [|done].
  intros (w & _ & ->)%run_rest_proper. by exists (c :: w).
Qed.

Local Abbreviation num := (cnt (run_rest d)).

Lemma num_digit c s : d c = true → num (c :: s) = S (num (drop_while d s)).
Proof.
  intros Ec. apply cnt_hit; [apply run_rest_proper|].
  unfold run_rest. cbn. by rewrite Ec.
Qed.

Lemma num_other c s : d c = false → num (c :: s) = num s.
Proof.
  intros Ec. apply cnt_miss; [apply run_rest_proper|].
  unfold run_rest. cbn. by rewrite Ec.
Qed.

Lemma num_le_drop s : (num s ≤ S (num (drop_while d s)))%nat.
Proof.
  destruct s as [|c s]; cbn [drop_while]; [lia|]. destruct (d c) eqn:Ec; [|lia].
  rewrite num_digit by done. lia.
Qed.

Lemma num_mono c s : (num s ≤ num (c :: s))%nat.
Proof.
  destruct (d c) eqn:Ec.
  - rewrite num_digit by done. apply num_le_drop.
  - by rewrite num_other.
Qed.

Lemma percent_le_number_aux n s :
  (length s < n)%nat →
  (cnt (percent_rest d) s ≤ num s)%nat ∧
  (cnt (percent_rest d) s ≤ S (num (drop_while d s)))%nat.
Proof.
  revert s. induction n as [|n IH]; intros s Hn; [lia|].
  destruct s as [|c s].
  { rewrite !cnt_nil by (apply percent_rest_proper || apply run_rest_proper). lia. }
  cbn in Hn. destruct (d c) eqn:Ec.
  - cbn [drop_while]. rewrite Ec, num_digit by done.
    destruct (percent_rest d (c :: s)) as [t|] eqn:E.
    + rewrite (cnt_hit _ _ t) by (apply percent_rest_proper || done).
      apply then_char_Some in E as (e & E & ->%is_char_true).
      unfold run_rest in E. cbn in E. rewrite Ec in E. injection E as E.
      rewrite E, num_other by done.
      assert (length t < n)%nat as Ht.
      { pose proof (take_drop_while d s) as El. apply (f_equal length) in El.
        rewrite E, length_app in El. cbn in El. lia. }
      destruct (IH t Ht). lia.
    + rewrite cnt_miss by (apply percent_rest_proper || done).
      destruct (IH s) as [_ ?]; [lia|]. lia.
  - cbn [drop_while]. rewrite Ec, num_other by done.
    rewrite cnt_miss.
    + destruct (IH s) as [? _]; [lia|]. lia.
    + apply percent_rest_proper.
    + unfold percent_rest, run_rest. cbn. by rewrite Ec.
Qed.

Lemma percent_le_number s : (cnt (percent_rest d) s ≤ num s)%nat.
Proof. apply (percent_le_number_aux (S (length s))). lia. Qed.

Lemma price_le_number_aux n s :
  (length s < n)%nat → (cnt (price_rest d) s ≤ num s)%nat.
Proof.
  revert s. induction n as [|n IH]; intros s Hn; [lia|].
  destruct s as [|c s].
  { rewrite !cnt_nil by (apply price_rest_proper || apply run_rest_proper). lia. }
  cbn in Hn. destruct (price_rest d (c :: s)) as [t|] eqn:E.
  - rewrite (cnt_hit _ _ t) by (apply price_rest_proper || done).
    cbn in E. destruct (is_char "$" c) eqn:Ec; [|done].
    apply is_char_true in Ec as ->. rewrite num_other by done.
    unfold run_rest in E. destruct s as [|e s]; [done|]. cbn in E.
    destruct (d e) eqn:Ee; [|done]. injection E as <-.
    rewrite num_digit by done.
    assert (length (drop_while d s) < n)%nat as Ht.
    { pose proof (take_drop_while d s) as El. apply (f_equal length) in El.
      rewrite length_app in El. cbn in Hn. lia. }
    specialize (IH _ Ht). lia.
  - rewrite cnt_miss by (apply price_rest_proper || done).
    specialize (IH s). pose proof (num_mono c s). lia.
Qed.

Lemma price_le_number s : (cnt (price_rest d) s ≤ num s)%nat.
Proof. apply (price_le_number_aux (S (length s))). lia. Qed.
End Counting.


(** ** The matches of [finditer], in order and complete *)

Section Spans.
Context {U : UnicodeData}.

Lemma spans_scan (m : bool → state → option nat) n :
  (∀ ma st k, m ma st = Some k → (0 < k ≤ length st.2)%nat) →
  ∀ s prev pos, (length s < n)%nat →
    Forall (λ sp, (pos ≤ sp.1)%nat ∧ sp.2 ≠ [] ∧
                  take (length sp.2) (drop (sp.1 - pos) s) = sp.2)
           (spans pos (scan m 0 prev s)) ∧
    StronglySorted precedes (spans pos (scan m 0 prev s)).
Proof.
  intros Hm. induction n as [|n IH]; intros s prev pos Hn; [lia|].
  destruct (m false (prev, s)) as [k|] eqn:E.
  - pose proof (Hm _ _ _ E) as Hk. cbn in Hk.
    rewrite (scan_hit _ _ _ k) by done. cbn [spans].
    rewrite length_take, Nat.min_l by lia.
    destruct (IH (drop k s) (prev_after prev s k) (pos + k)%nat) as [IH1 IH2].
    { rewrite length_drop. lia. }
    split.
    + constructor.
      * cbn. split; [lia|]. rewrite Nat.sub_diag, drop_0, length_take, Nat.min_l by lia.
        split; [|done].
        intros Hnil. apply (f_equal length) in Hnil. rewrite length_take in Hnil.
        cbn in Hnil. lia.
      * eapply Forall_impl; [exact IH1|]. intros [i x]. cbn.
        intros (Hi & Hx & Ex). split; [lia|]. split; [done|].
        rewrite drop_drop in Ex. by replace (i - pos)%nat with (k + (i - (pos + k)))%nat by lia.
    + constructor; [done|]. eapply Forall_impl; [exact IH1|].
      intros [i x] (Hi & _). unfold precedes. cbn in *.
      rewrite length_take. lia.
  - destruct s as [|c s]; [rewrite scan_end by done; split; constructor|].
    rewrite scan_miss by done. cbn [spans].
    destruct (IH s (Some c) (S pos)) as [IH1 IH2]; [cbn in Hn; lia|].
    split; [|done]. eapply Forall_impl; [exact IH1|]. intros [i x]. cbn.
    intros (Hi & Hx & Ex). split; [lia|]. split; [done|].
    by replace (i - pos)%nat with (S (i - S pos)) by lia.
Qed.

Lemma finditer_in_order r text :
  (0 < min_len r)%nat →
  Forall (occurs_in text) (finditer r text) ∧ StronglySorted precedes (finditer r text).
Proof.
  intros Hpos. unfold finditer.
  destruct (spans_scan (match_at r) (S (length text))) with (s := text) (prev := @None N) (pos := 0%nat)
    as [H1 H2]; [|lia|].
  { intros ma st k E. apply match_at_bound in E. lia. }
  split; [|done]. eapply Forall_impl; [exact H1|]. intros [i x]. cbn.
  rewrite Nat.sub_0_r. intros (_ & ? & ?). by split.
Qed.


Lemma prev_after_drop prev s j i :
  (j ≤ length s)%nat →
  prev_after (prev_after prev s j) (drop j s) i = prev_after prev s (j + i).
Proof.
  revert prev j. induction s as [|c s IH]; intros prev j Hj.
  - cbn in Hj. by replace j with 0%nat by lia.
  - destruct j as [|j]; [done|]. cbn [drop Nat.add].
    rewrite !prev_after_S. apply IH. cbn in Hj. lia.
Qed.

Lemma prev_after_None s k : prev_after None s k = last (take k s).
Proof. unfold prev_after. by destruct (last (take k s)). Qed.

Lemma scan_covers (m : bool → state → option nat) n :
  (∀ ma st k, m ma st = Some k → (0 < k ≤ length st.2)%nat) →
  ∀ s prev pos k, (length s < n)%nat →
    m false (prev_after prev s k, drop k s) = None ∨
    ∃ sp, sp ∈ spans pos (scan m 0 prev s) ∧
          (sp.1 ≤ pos + k < sp.1 + length sp.2)%nat.
Proof.
  intros Hm. induction n as [|n IH]; intros s prev pos k Hn; [lia|].
  destruct (m false (prev, s)) as [j|] eqn:E.
  - pose proof (Hm _ _ _ E) as Hj. cbn in Hj.
    rewrite (scan_hit _ _ _ j) by done. cbn [spans].
    destruct (decide (k < j)%nat) as [Hk|Hk].
    + right. exists (pos, take j s). split; [by left|]. cbn.
      rewrite length_take. lia.
    + destruct (IH (drop j s) (prev_after prev s j) (pos + length (take j s))%nat
                   (k - j)%nat) as [Hnone|(sp & Hin & Hsp)].
      { rewrite length_drop. lia. }
      * left. rewrite prev_after_drop, drop_drop in Hnone by lia.
        by replace (j + (k - j))%nat with k in Hnone by lia.
      * right. exists sp. split; [by right|].
        rewrite length_take in Hsp. lia.
  - destruct s as [|c s].
    { left. rewrite drop_nil. destruct (m false (prev_after prev [] k, [])) eqn:E'; [|done].
      apply Hm in E'. cbn in E'. lia. }
    rewrite scan_miss by done. cbn [spans].
    destruct k as [|k]; [by left|].
    destruct (IH s (Some c) (S pos) k) as [Hnone|(sp & Hin & Hsp)]; [cbn in Hn; lia|..].
    + left. by rewrite prev_after_S.
    + right. exists sp. split; [done|]. lia.
Qed.

Lemma finditer_covers r text k :
  (0 < min_len r)%nat →
  rmatch r (last (take k text), drop k text) = [] ∨
  ∃ sp, sp ∈ finditer r text ∧ (sp.1 ≤ k < sp.1 + length sp.2)%nat.
Proof.
  intros Hpos. unfold finditer.
  destruct (scan_covers (match_at r) (S (length text))) with
    (s := text) (prev := @None N) (pos := 0%nat) (k := k) as [H1|H1]; [|lia| |].
  - intros ma st j E. apply match_at_bound in E. lia.
  - left. apply match_at_None. by rewrite <- prev_after_None.
  - by right.
Qed.

Lemma foldl_extend {A B} (g : A → list B) (acc : list B) (l : list A) :
  foldl (λ acc x, acc ++ g x) acc l = acc ++ concat (g <$> l).
Proof.
  revert acc. induction l as [|x l IH]; intros acc; cbn.
  - by rewrite app_nil_r.
  - by rewrite IH, app_assoc.
Qed.

(** C7: the result is the matches of the three groups, group after group;
    the matches of a group are occurrences in the text, listed from left
    to right without overlap; and no occurrence is dropped: wherever a
    group matches, that offset lies in one of its listed matches. *)
Theorem extract_cta_text_order text :
  extract_cta_text text = concat ((λ group, findall group text) <$> cta_patterns) ∧
  Forall (λ group,
    findall group text = snd <$> finditer group text ∧
    Forall (occurs_in text) (finditer group text) ∧
    StronglySorted precedes (finditer group text) ∧
    ∀ k, rmatch group (last (take k text), drop k text) = [] ∨
         ∃ sp, sp ∈ finditer group text ∧ (sp.1 ≤ k < sp.1 + length sp.2)%nat)
    cta_patterns.
Proof.
  split.
  - unfold extract_cta_text. by rewrite foldl_extend.
  - assert (∀ group, (0 < min_len group)%nat →
      findall group text = snd <$> finditer group text ∧
      Forall (occurs_in text) (finditer group text) ∧
      StronglySorted precedes (finditer group text) ∧
      ∀ k, rmatch group (last (take k text), drop k text) = [] ∨
           ∃ sp, sp ∈ finditer group text ∧ (sp.1 ≤ k < sp.1 + length sp.2)%nat)
      as Hgroup.
    { intros group Hpos. destruct (finditer_in_order group text Hpos).
      split_and!; [done..|]. intros k. by apply finditer_covers. }
    repeat (apply Forall_cons_2; [apply Hgroup; cbn; lia|]). constructor.
Qed.
End Spans.

(** Repeated phrases are kept, and the groups come in their order, not
    in the order of the text. *)
Example extract_cta_text_repeats :
  extract_cta_text (U := AsciiData.data) (str "Act now! Shop now, shop now.") =
    [str "Shop now"; str "shop now"; str "Act now"].
Proof. vm_compute. reflexivity. Qed.

(** C1 fails on the urgency count: no word of the urgency lists occurs in
    the text ([act now] is a phrase of [extract_cta_text]). *)
Lemma sentiment_example_urgency :
  let counts := analyze_sentiment_indicators (U := AsciiData.data)
                  (str "This is amazing and terrible, act now") in
  counts !! "urgency_count" = Some 0%Z ∧ counts !! "urgency_count" ≠ Some 1%Z.
Proof. vm_compute. split; done. Qed.

(** C1, amended: one positive word, one negative word, no urgency word. *)
Theorem sentiment_example :
  let counts := analyze_sentiment_indicators (U := AsciiData.data)
                  (str "This is amazing and terrible, act now") in
  counts !! "positive_count" = Some 1%Z ∧
  counts !! "negative_count" = Some 1%Z ∧
  counts !! "urgency_count" = Some 0%Z.
Proof. vm_compute. done. Qed.

(** ** Division: the float nearest to a quotient *)

Section Rounding.
Local Open Scope Z_scope.

Lemma round_half_even_cases num den :
  0 < den →
  let m := round_half_even num den in
  (m = num / den ∧ 2 * (num mod den) ≤ den) ∨
  (m = num / den + 1 ∧ den ≤ 2 * (num mod den)).
Proof.
  intros Hden. unfold round_half_even. cbn zeta.
  destruct (Z.ltb_spec (2 * (num mod den)) den); [left; lia|].
  destruct (Z.eqb_spec (2 * (num mod den)) den); cbn [andb].
  - destruct (Z.even _); [left|right]; lia.
  - right; lia.
Qed.

Lemma round_half_even_nearest num den n :
  0 < den →
  Z.abs (round_half_even num den * den - num) ≤ Z.abs (n * den - num).
Proof.
  intros Hden.
  pose proof (Z.div_mod num den ltac:(lia)) as Hdm.
  pose proof (Z.mod_pos_bound num den Hden) as Hr.
  destruct (round_half_even_cases num den Hden) as [[-> H]|[-> H]];
    destruct (Z_le_gt_dec n (num / den)) as [Hn|Hn].
  - assert (n * den ≤ num / den * den) by nia. lia.
  - assert ((num / den + 1) * den ≤ n * den) by nia. lia.
  - assert (n * den ≤ num / den * den) by nia. lia.
  - assert ((num / den + 1) * den ≤ n * den) by nia. lia.
Qed.

Lemma round_half_even_lower num den n :
  0 < den → n * den ≤ num → n ≤ round_half_even num den.
Proof.
  intros Hden Hn.
  assert (n ≤ num / den) by (apply Z.div_le_lower_bound; lia).
  destruct (round_half_even_cases num den Hden) as [[-> _]|[-> _]]; lia.
Qed.

Lemma round_half_even_upper num den n :
  0 < den → num ≤ n * den → round_half_even num den ≤ n.
Proof.
  intros Hden Hn.
  pose proof (Z.div_mod num den ltac:(lia)) as Hdm.
  pose proof (Z.mod_pos_bound num den Hden) as Hr.
  destruct (round_half_even_cases num den Hden) as [[-> _]|[-> H]].
  - apply Z.div_le_upper_bound; lia.
  - destruct (Z_le_gt_dec (num / den + 1) n) as [|Hgt]; [done|].
    assert (n * den ≤ num / den * den) by nia. lia.
Qed.

End Rounding.

Section Fraction.
Local Open Scope Z_scope.
Variables a b : Z.
Hypothesis Ha : 0 < a.
Hypothesis Hab : a ≤ b.

Lemma binade_fraction :
  let p := binade a b in
  p ≤ 0 ∧ b ≤ a * 2 ^ (- p) < 2 * b.
Proof.
  unfold binade.
  pose proof (Z.log2_spec a Ha) as [Ha1 Ha2].
  pose proof (Z.log2_spec b ltac:(lia)) as [Hb1 Hb2].
  pose proof (Z.log2_le_mono a b Hab) as Hd.
  pose proof (Z.log2_nonneg a) as Hla.
  set (la := Z.log2 a) in *. set (lb := Z.log2 b) in *.
  assert (2 ^ lb = 2 ^ la * 2 ^ (lb - la)) as Hpow.
  { rewrite <- Z.pow_add_r by lia. f_equal; lia. }
  assert (0 < 2 ^ (lb - la)) as Hpos by (apply Z.pow_pos_nonneg; lia).
  assert (0 < 2 ^ la) as Hpos' by (apply Z.pow_pos_nonneg; lia).
  rewrite Z.pow_succ_r in Ha2, Hb2 by lia.
  unfold scaled_fraction.
  rewrite (Z.max_l 0 (la - lb)), (Z.max_r 0 (- (la - lb))) by lia.
  replace (- (la - lb)) with (lb - la) by lia.
  rewrite Z.pow_0_r, Z.mul_1_r.
  destruct (Z.leb_spec b (a * 2 ^ (lb - la))) as [Hle|Hgt]; cbn zeta.
  - replace (- (la - lb)) with (lb - la) by lia. split; [lia|]. split; [done|]. nia.
  - replace (- (la - lb - 1)) with (Z.succ (lb - la)) by lia.
    rewrite Z.pow_succ_r by lia. split; [lia|]. nia.
Qed.

Lemma divide_fraction :
  let x := divide a b in
  negative x = false ∧ nearest x a b ∧ 0 ≤ scaled x ≤ 2 ^ 1074.
Proof.
  pose proof binade_fraction as (Hp & Hlo & Hhi). cbn zeta in *.
  unfold divide. rewrite !Z.abs_eq by lia.
  rewrite (proj2 (Z.ltb_ge a 0)), (proj2 (Z.ltb_ge b 0)) by lia.
  rewrite decide_False by lia. cbn [xorb].
  set (p := binade a b) in *.
  set (e := Z.max (p - 52) (-1074)).
  assert (-1074 ≤ e ≤ -52) as He by lia.
  unfold scaled_fraction.
  rewrite (Z.max_l 0 e), (Z.max_r 0 (- e)), Z.pow_0_r, Z.mul_1_r by lia.
  set (num := a * 2 ^ (- e)). set (m := round_half_even num b).
  assert (0 < b) as Hb by lia.
  assert (0 < 2 ^ (- e)) as Hk by (apply Z.pow_pos_nonneg; lia).
  assert (0 < 2 ^ (- p)) as Hpp by (apply Z.pow_pos_nonneg; lia).
  set (w := 2 ^ (e + 1074)).
  assert (0 < w) as Hw by (apply Z.pow_pos_nonneg; lia).
  assert (2 ^ 1074 = 2 ^ (- e) * w) as H1074.
  { unfold w. rewrite <- Z.pow_add_r by lia. f_equal; lia. }
  assert (0 ≤ m) as Hm0 by (apply round_half_even_lower; unfold num; nia).
  assert (m ≤ 2 ^ (- e)) as Hm1 by (apply round_half_even_upper; unfold num; nia).
  assert (m ≤ 2 ^ 53 ∧ (e = p - 52 → 2 ^ 52 * b ≤ num ∧ 2 ^ 52 ≤ m)
          ∧ (e ≠ p - 52 → m ≤ 2 ^ 52)) as (Hm53 & Hnormal & Hsub).
  { destruct (decide (e = p - 52)) as [Ee|Ee].
    - assert (2 ^ (- e) = 2 ^ 52 * 2 ^ (- p)) as Hpe.
      { rewrite <- Z.pow_add_r by lia. f_equal; lia. }
      assert (2 ^ 52 * b ≤ num) by (unfold num; rewrite Hpe; nia).
      assert (2 ^ 52 ≤ m) by (apply round_half_even_lower; lia).
      assert (m ≤ 2 ^ 53) by (apply round_half_even_upper; [done|]; unfold num; rewrite Hpe; nia).
      done.
    - assert (e = -1074 ∧ 1074 ≤ 51 - p) as [-> Hp'] by lia.
      assert (2 ^ (51 - p) = 2 ^ 1074 * 2 ^ (51 - p - 1074)) as Hpe.
      { rewrite <- Z.pow_add_r by lia. f_equal; lia. }
      assert (2 ^ (51 - p) = 2 ^ 51 * 2 ^ (- p)) as Hpe'.
      { rewrite <- Z.pow_add_r by lia. f_equal; lia. }
      assert (0 < 2 ^ (51 - p - 1074)) by (apply Z.pow_pos_nonneg; lia).
      assert (m ≤ 2 ^ 52).
      { apply round_half_even_upper; [done|]. unfold num.
        change (- -1074) with 1074.
        assert (a * 2 ^ 1074 ≤ a * 2 ^ (51 - p)) by (rewrite Hpe; nia).
        assert (a * 2 ^ (51 - p) ≤ 2 ^ 52 * b) by (rewrite Hpe'; nia).
        lia. }
      split; [lia|]. split; [lia|done]. }
  set (x := if decide (m = 2 ^ 53) then Float false (2 ^ 52) (e + 1) else Float false m e).
  assert (scaled x = m * w) as Hscaled.
  { unfold x, scaled, w. destruct (decide (m = 2 ^ 53)) as [->|]; cbn [negative mantissa exponent].
    - replace (e + 1 + 1074) with (Z.succ (e + 1074)) by lia.
      rewrite Z.pow_succ_r by lia. lia.
    - lia. }
  assert (is_double x) as Hdouble.
  { unfold x, is_double. destruct (decide (m = 2 ^ 53)) as [E|E]; cbn [negative mantissa exponent].
    - lia.
    - split; [lia|]. split; [lia|].
      destruct (decide (e = p - 52)) as [Ee|Ee]; [left; by apply Hnormal | right; lia]. }
  split; [by unfold x; destruct (decide _)|]. split.
  - split; [done|]. intros [s my ey] (Hmy & Hey & Hcanon). cbn [negative mantissa exponent] in *.
    rewrite Hscaled. unfold scaled. cbn [negative mantissa exponent].
    replace (a * 2 ^ 1074) with (num * w) by (unfold num; rewrite H1074; lia).
    assert (0 < 2 ^ (ey + 1074)) as HT by (apply Z.pow_pos_nonneg; lia).
    assert (∀ n, Z.abs (m * w * b - num * w) ≤ Z.abs (n * w * b - num * w)) as Hnear.
    { intros n. pose proof (round_half_even_nearest num b n Hb) as Hn. fold m in Hn.
      replace (m * w * b - num * w) with ((m * b - num) * w) by lia.
      replace (n * w * b - num * w) with ((n * b - num) * w) by lia.
      rewrite !Z.abs_mul, (Z.abs_eq w) by lia. nia. }
    assert (0 ≤ num) by (unfold num; nia).
    destruct s.
    + specialize (Hnear 0). assert (0 ≤ my * 2 ^ (ey + 1074) * b) by nia. lia.
    + destruct (Z_le_gt_dec e ey) as [Hge|Hlt].
      * assert (2 ^ (ey + 1074) = 2 ^ (ey - e) * w) as ->.
        { unfold w. rewrite <- Z.pow_add_r by lia. f_equal; lia. }
        specialize (Hnear (my * 2 ^ (ey - e))).
        replace (1 * (my * (2 ^ (ey - e) * w)) * b) with (my * 2 ^ (ey - e) * w * b) by lia.
        done.
      * assert (e = p - 52) as Ee by lia. destruct (Hnormal Ee) as [Hnum _].
        assert (w = 2 ^ (ey + 1074) * 2 ^ (e - ey)) as Hwy.
        { unfold w. rewrite <- Z.pow_add_r by lia. f_equal; lia. }
        assert (2 * 1 ≤ 2 ^ (e - ey)) as H2.
        { replace (e - ey) with (Z.succ (e - ey - 1)) by lia.
          rewrite Z.pow_succ_r by lia.
          assert (0 < 2 ^ (e - ey - 1)) by (apply Z.pow_pos_nonneg; lia). lia. }
        assert (my * 2 ^ (ey + 1074) ≤ 2 ^ 52 * w) as Hy.
        { rewrite Hwy. nia. }
        specialize (Hnear (2 ^ 52)).
        assert (my * 2 ^ (ey + 1074) * b ≤ 2 ^ 52 * w * b)
          by (apply Z.mul_le_mono_nonneg_r; lia).
        assert (2 ^ 52 * w * b ≤ num * w).
        { replace (2 ^ 52 * w * b) with (2 ^ 52 * b * w) by lia.
          apply Z.mul_le_mono_nonneg_r; lia. }
        lia.
  - rewrite Hscaled, H1074. nia.
Qed.


Lemma truediv_fraction : truediv a b = Some (divide a b).
Proof.
  pose proof divide_fraction as (_ & ((_ & He & _) & _) & _). cbn zeta in *.
  unfold truediv. rewrite decide_False by lia.
  by rewrite (proj2 (Z.ltb_ge _ _)) by lia.
Qed.

End Fraction.

Section Ratio.
Local Open Scope Z_scope.

(** The quotient of a part by the whole: the division returns, with the
    float nearest to the quotient, which lies between 0 and 1. *)
Lemma divide_ratio a b :
  0 ≤ a ≤ b → 0 < b →
  truediv a b = Some (divide a b) ∧
  nearest (divide a b) a b ∧
  0 ≤ scaled (divide a b) ≤ 2 ^ 1074.
Proof.
  intros [Ha Hab] Hb. destruct (decide (a = 0)) as [->|Hne].
  - assert (divide 0 b = Float false 0 (-1074)) as E.
    { unfold divide. by rewrite (proj2 (Z.ltb_ge b 0)) by lia. }
    unfold truediv. rewrite decide_False, E by lia. split; [done|]. split.
    + split; [unfold is_double; cbn [negative mantissa exponent]; lia|].
      intros y _. unfold scaled at 1. cbn [negative mantissa exponent]. lia.
    + unfold scaled. cbn [negative mantissa exponent]. lia.
  - pose proof (divide_fraction a b ltac:(lia) Hab) as (_ & Hnear & Hscaled).
    split; [apply truediv_fraction; lia|done].
Qed.

End Ratio.

(** ** [extract_features] *)

Section Features.
Context {U : UnicodeData}.

Lemma uppercase_count_bounds text : (0 ≤ uppercase_count text ≤ len text)%Z.
Proof.
  unfold uppercase_count, len.
  pose proof (length_filter (λ c, is_upper c = true) text). lia.
Qed.

Lemma sum_ones {A} (l : list A) : py_sum ((λ _, 1%Z) <$> l) = len l.
Proof.
  unfold py_sum, len. rewrite <- (Z.add_0_l (Z.of_nat (length l))).
  generalize 0%Z. induction l as [|x l IH]; intros a; cbn; [lia|].
  rewrite IH. lia.
Qed.

Lemma caps_ratio_total text :
  (if text is [] then Some (VInt 0)
   else VFloat <$> truediv (py_sum ((λ _, 1%Z) <$> filter (λ c, is_upper c = true) text))
                           (len text)) = Some (caps_ratio_of text).
Proof.
  destruct text as [|a text]; [done|].
  rewrite sum_ones. fold (uppercase_count (a :: text)). cbn [caps_ratio_of].
  destruct (divide_ratio (uppercase_count (a :: text)) (len (a :: text))) as [-> _];
    [apply uppercase_count_bounds|unfold len; cbn; lia|done].
Qed.

Lemma extract_features_total text : extract_features text = Some (features_of text).
Proof. unfold extract_features. by rewrite caps_ratio_total. Qed.

Lemma feature_lookup key text : feature key text = features_of text !! key.
Proof. unfold feature. by rewrite extract_features_total. Qed.

(** C8: the mapping returned for any text has exactly the twelve keys. *)
Theorem extract_features_keys text :
  ∃ fs, extract_features text = Some fs ∧ dom fs = list_to_set feature_keys.
Proof.
  exists (features_of text). split; [apply extract_features_total|].
  unfold features_of. rewrite !dom_insert_L, dom_empty_L. cbn. set_solver.
Qed.

(** C4: on a text, which is what the signatures ask for, none of the
    five operations raises: the one partial step, the division of
    [caps_ratio], is guarded against the empty text and cannot overflow.
    [clean_text] returns the empty text for [None] too. On the empty
    text every result is empty or zero: the cleaned text, every feature
    ([caps_ratio] included, the integer 0), the buzzwords, the calls to
    action and the three sentiment counts. *)
Theorem no_operation_raises :
  (∀ text remove_emojis min_length,
     returns (Untyped.clean_text (PyStr text) remove_emojis) ∧
     returns (Untyped.extract_features (PyStr text)) ∧
     returns (Untyped.extract_buzzwords (PyStr text) min_length) ∧
     returns (Untyped.extract_cta_text (PyStr text)) ∧
     returns (Untyped.analyze_sentiment_indicators (PyStr text))) ∧
  (∀ remove_emojis,
     Untyped.clean_text PyNone remove_emojis = inr [] ∧
     Untyped.clean_text (PyStr []) remove_emojis = inr []) ∧
  (∃ features,
     Untyped.extract_features (PyStr []) = inr features ∧
     Forall (λ key, features !! key = Some (VInt 0)) feature_keys) ∧
  (∀ min_length, Untyped.extract_buzzwords (PyStr []) min_length = inr []) ∧
  Untyped.extract_cta_text (PyStr []) = inr [] ∧
  Untyped.analyze_sentiment_indicators (PyStr [])
    = inr {[ "positive_count" := 0%Z; "negative_count" := 0%Z;
             "urgency_count" := 0%Z ]}.
Proof.
  split_and!.
  - intros text remove_emojis min_length. unfold returns, Untyped.extract_features.
    rewrite extract_features_total. split_and!; by eexists.
  - done.
  - exists (features_of []). unfold Untyped.extract_features.
    rewrite extract_features_total. split; [done|]. repeat constructor.
  - done.
  - done.
  - done.
Qed.

(** C5: [caps_ratio] is the number of uppercase characters divided by
    the length of the text, by Python's division of the two integers,
    which returns the float nearest to the quotient; it is the integer 0
    for the empty text, and it lies in [0,1]. *)
Theorem caps_ratio_spec text :
  ∃ v, feature "caps_ratio" text = Some v ∧
       match text with
       | [] => v = VInt 0
       | _ => ∃ x, v = VFloat x ∧
                   truediv (uppercase_count text) (len text) = Some x ∧
                   nearest x (uppercase_count text) (len text)
       end ∧
       (0 <= to_Q v <= 1)%Q.
Proof.
  exists (caps_ratio_of text). rewrite feature_lookup. split.
  { unfold features_of. by simplify_map_eq. }
  destruct text as [|a text]; [done|]. cbn [caps_ratio_of to_Q].
  set (s := a :: text).
  destruct (divide_ratio (uppercase_count s) (len s)) as (Hdiv & Hnear & H0 & H1);
    [apply uppercase_count_bounds|unfold len; cbn; lia|].
  split; [by eexists|].
  unfold Qle. cbn [Qnum Qden inject_Z]. rewrite Pos2Z.inj_pow. lia.
Qed.

Lemma drop_while_nil_all p s : drop_while p s = [] → Forall (λ c, p c = true) s.
Proof.
  intros E. rewrite <- (take_drop_while p s), E, app_nil_r. apply take_while_all.
Qed.

Lemma strip_nonempty s : strip s ≠ [] ↔ Exists (λ c, is_space c = false) s.
Proof.
  split.
  - intros Hne. unfold strip, rstrip in Hne.
    destruct (drop_while is_space (reverse (lstrip s))) as [|e t] eqn:E; [done|].
    apply Exists_exists. exists e. split; [|by apply drop_while_head in E].
    assert (e ∈ reverse (lstrip s)) as Hin.
    { rewrite <- (take_drop_while is_space (reverse (lstrip s))), E.
      apply elem_of_app. right. by left. }
    rewrite elem_of_reverse in Hin. rewrite (lstrip_factor s).
    apply elem_of_app. by right.
  - intros (c & Hin & Hc)%Exists_exists Hnil.
    unfold strip, rstrip in Hnil.
    apply (f_equal reverse) in Hnil. rewrite reverse_involutive in Hnil. cbn in Hnil.
    apply drop_while_nil_all in Hnil.
    assert (lstrip s = []) as Hl.
    { unfold lstrip in *. destruct (drop_while is_space s) as [|e t] eqn:E; [done|].
      apply drop_while_head in E. rewrite Forall_forall in Hnil.
      rewrite (Hnil e) in E; [done|]. rewrite elem_of_reverse. by left. }
    apply drop_while_nil_all in Hl. rewrite Forall_forall in Hl.
    apply Hl in Hin. congruence.
Qed.

(** C3, amended: [sentence_count] is the number of segments between
    periods that hold a character other than whitespace. *)
Theorem sentence_count_spec text :
  feature "sentence_count" text =
    Some (VInt (len (filter (Exists (λ c, is_space c = false))
                            (split_on (ord ".") text)))).
Proof.
  rewrite feature_lookup. unfold features_of. simplify_map_eq.
  do 3 f_equal. apply list_filter_iff. intros s. apply strip_nonempty.
Qed.

Lemma length_findall r f s :
  boundary_free r = true → (0 < min_len r)%nat →
  (∀ t, first_rest r t = f t) →
  length (findall r s) = cnt f s.
Proof.
  intros Hbf Hpos Hf. unfold findall. rewrite length_fmap.
  rewrite finditer_pieces by done. rewrite length_spans.
  unfold cnt. by rewrite (pieces_ext _ f).
Qed.

Lemma first_rest_percentage s :
  is_decimal (ord "%") = false →
  first_rest percentage s = percent_rest is_decimal s.
Proof.
  intros Hd. unfold first_rest, percentage, percent_rest, Chr.
  rewrite rests_run_then.
  - by destruct (then_char _ _).
  - by intros c ->%is_char_true.
Qed.

Lemma first_rest_price s : first_rest price s = price_rest is_decimal s.
Proof.
  unfold first_rest, price, price_rest. rewrite rests_chr_seq by done.
  destruct s as [|c s]; [done|]. destruct (is_char "$" c); [|done].
  apply first_rest_plus_class.
Qed.

(** C10: when [%] and [$] are not digits, neither the percentages nor the
    prices outnumber the digit runs. *)
Theorem numeric_mentions_bounded text :
  is_decimal (ord "%") = false → is_decimal (ord "$") = false →
  ∃ percentages prices numbers : Z,
    feature "percentage_mentions" text = Some (VInt percentages) ∧
    feature "price_mentions" text = Some (VInt prices) ∧
    feature "number_count" text = Some (VInt numbers) ∧
    (percentages ≤ numbers)%Z ∧ (prices ≤ numbers)%Z.
Proof.
  intros Hpct Hdol. do 3 eexists. rewrite !feature_lookup. unfold features_of.
  split_and!; [by simplify_map_eq..| |]; unfold len.
  - rewrite (length_findall percentage (percent_rest is_decimal));
      [|done|cbn; lia|intros; by apply first_rest_percentage].
    rewrite (length_findall number (run_rest is_decimal));
      [|done|cbn; lia|intros; apply first_rest_plus_class].
    apply Nat2Z.inj_le. by apply percent_le_number.
  - rewrite (length_findall price (price_rest is_decimal));
      [|done|cbn; lia|intros; by apply first_rest_price].
    rewrite (length_findall number (run_rest is_decimal));
      [|done|cbn; lia|intros; apply first_rest_plus_class].
    apply Nat2Z.inj_le. by apply price_le_number.
Qed.
End Features.

(** C3 fails on a segment of whitespace: [Hi. ] splits into two non-empty
    segments and counts one sentence. *)
(** The claim of C4 as it is written, for any input: [None] in place of
    the text makes four of the five operations raise. *)
Lemma extract_features_raises_on_None :
  Untyped.extract_features (U := AsciiData.data) PyNone = inl AttributeError ∧
  Untyped.extract_buzzwords (U := AsciiData.data) PyNone 3 = inl AttributeError ∧
  Untyped.extract_cta_text (U := AsciiData.data) PyNone = inl TypeError ∧
  Untyped.analyze_sentiment_indicators (U := AsciiData.data) PyNone = inl TypeError ∧
  ¬ (∀ text, returns (Untyped.extract_features (U := AsciiData.data) text)).
Proof.
  split_and!; try done. intros H. by destruct (H PyNone) as [features ?].
Qed.

Lemma sentence_count_whitespace_segment :
  feature (U := AsciiData.data) "sentence_count" (str "Hi. ") = Some (VInt 1) ∧
  len (filter (λ s, s ≠ []) (split_on (ord ".") (str "Hi. "))) = 2%Z ∧
  feature (U := AsciiData.data) "sentence_count" (str "Hi. ")
    ≠ Some (VInt (len (filter (λ s, s ≠ []) (split_on (ord ".") (str "Hi. "))))).
Proof. vm_compute. split_and!; done. Qed.

Lemma numeric_mentions_bounded_witness :
  let text := str "Get 50% off, only $20 today!" in
  (is_decimal (UnicodeData := AsciiData.data) (ord "%") = false ∧
   is_decimal (UnicodeData := AsciiData.data) (ord "$") = false) ∧
  ∃ percentages prices numbers : Z,
    feature (U := AsciiData.data) "percentage_mentions" text = Some (VInt percentages) ∧
    feature (U := AsciiData.data) "price_mentions" text = Some (VInt prices) ∧
    feature (U := AsciiData.data) "number_count" text = Some (VInt numbers) ∧
    (percentages ≤ numbers)%Z ∧ (prices ≤ numbers)%Z.
Proof.
  split; [split; reflexivity|].
  apply (numeric_mentions_bounded (U := AsciiData.data)); reflexivity.
Defined.


(** ** [extract_buzzwords] *)

Section Buzzwords.
Context {U : UnicodeData}.

Lemma lower_from_lowered before s :
  lower_stable → Forall lowered (lower_from before s).
Proof.
  intros (Hmap & Hfinal & Hsmall). revert before.
  induction s as [|c s IH]; intros before; [constructor|].
  cbn [lower_from]. apply Forall_app. split; [|apply IH].
  destruct (N.eqb_spec c 0x3A3) as [->|Hc]; [|by apply Hmap].
  constructor; [|constructor]. by destruct (final_sigma before s).
Qed.

Lemma lower_fixed before w : Forall lowered w → lower_from before w = w.
Proof.
  intros Hw. revert before. induction Hw as [|c w [Hc Ec] _ IH]; intros before; [done|].
  cbn [lower_from]. apply N.eqb_neq in Hc. by rewrite Hc, Ec, IH.
Qed.

Lemma split_runs_chars cur s w :
  w ∈ split_runs cur s → ∀ c, c ∈ w → c ∈ cur ∨ c ∈ s.
Proof.
  revert cur. induction s as [|a s IH]; intros cur Hw c Hc.
  - cbn in Hw. destruct cur; [by apply elem_of_nil in Hw|].
    apply list_elem_of_singleton in Hw as ->. by left.
  - cbn in Hw. destruct (is_space a).
    + destruct cur as [|b cur].
      * destruct (IH _ Hw c Hc) as [?|?]; [by left | right; by right].
      * apply elem_of_cons in Hw as [->|Hw]; [by left|].
        destruct (IH _ Hw c Hc) as [Hn|?]; [by apply elem_of_nil in Hn|].
        right; by right.
    + destruct (IH _ Hw c Hc) as [Hcur|?]; [|right; by right].
      apply elem_of_app in Hcur as [?|Ha]; [by left|].
      apply list_elem_of_singleton in Ha as ->. right; by left.
Qed.

Lemma split_words_chars s w c : w ∈ split s → c ∈ w → c ∈ s.
Proof.
  intros Hw Hc.
  destruct (split_runs_chars [] s w Hw c Hc) as [Hn|]; [by apply elem_of_nil in Hn|done].
Qed.

(** C6: for Unicode tables whose lowercase forms are stable, the buzzwords
    are distinct, and each has the minimum length, is its own lowercase
    form and is no stopword. *)
Theorem extract_buzzwords_spec text min_length :
  lower_stable →
  NoDup (extract_buzzwords text min_length) ∧
  ∀ word, word ∈ extract_buzzwords text min_length →
    (min_length ≤ len word)%Z ∧ lower word = word ∧ word ∉ str <$> stopwords.
Proof.
  intros Hstable. unfold extract_buzzwords. split; [apply NoDup_elements|].
  intros word Hin. apply elem_of_elements, elem_of_list_to_set in Hin.
  apply list_elem_of_filter in Hin as [[Hlen Hcommon] Hin]. split_and!.
  - lia.
  - apply lower_fixed. apply Forall_forall. intros c Hc.
    pose proof (lower_from_lowered [] (translate_delete punctuation text) Hstable) as Hl.
    rewrite Forall_forall in Hl. apply Hl. by eapply split_words_chars.
  - intros Hstop. apply Hcommon. unfold common_words.
    by apply elem_of_list_to_set.
Qed.
End Buzzwords.

(** The ASCII table has stable lowercase forms. *)
Lemma ascii_lower_stable : lower_stable (U := AsciiData.data).
Proof.
  split_and!; [|by split..]. intros c Hc. constructor; [|constructor].
  unfold lowered. cbn [to_lower_full AsciiData.data]. unfold AsciiData.to_lower.
  destruct (AsciiData.upper c) eqn:E.
  - unfold AsciiData.upper, in_range in *.
    apply andb_true_iff in E as [E1%N.leb_le E2%N.leb_le].
    change (ord "A") with 65 in *. change (ord "Z") with 90 in *.
    assert ((65 <=? c + 32) && (c + 32 <=? 90) = false) as ->.
    { apply andb_false_iff. right. apply N.leb_gt. lia. }
    split; [lia | done].
  - by rewrite E.
Defined.

Lemma extract_buzzwords_spec_witness :
  let text := str "The Quick Brown Fox" in
  lower_stable (U := AsciiData.data) ∧
  NoDup (extract_buzzwords (U := AsciiData.data) text 3) ∧
  ∀ word, word ∈ extract_buzzwords (U := AsciiData.data) text 3 →
    (3 ≤ len word)%Z ∧ lower (U := AsciiData.data) word = word ∧
    word ∉ str <$> stopwords.
Proof.
  split; [apply ascii_lower_stable|].
  apply (extract_buzzwords_spec (U := AsciiData.data) _ 3), ascii_lower_stable.
Defined.

Example extract_buzzwords_fox :
  extract_buzzwords (U := AsciiData.data) (str "The Quick Brown Fox the fox") 3
    ≡ₚ [str "quick"; str "brown"; str "fox"].
Proof. vm_compute. apply (reverse_Permutation [_; _; _]). Qed.

(** ** The examples of the specification, on the ASCII tables *)

Example clean_text_example :
  clean_text (U := AsciiData.data)
    (str "<b>Hello</b>   see http://x.com/a?b=1 now <> ") false
  = str "Hello see now <>".
Proof. vm_compute. reflexivity. Qed.

Example extract_features_buy_now :
  let text := str "BUY NOW!!!" in
  feature (U := AsciiData.data) "exclamation_count" text = Some (VInt 3) ∧
  feature (U := AsciiData.data) "all_caps_words" text = Some (VInt 2) ∧
  feature (U := AsciiData.data) "cta_signals" text = Some (VInt 2).
Proof. vm_compute. done. Qed.

Example extract_features_caps_ratio :
  feature (U := AsciiData.data) "caps_ratio" (str "Abc")
    = Some (VFloat (Float false 6004799503160661 (-54))) ∧
  feature (U := AsciiData.data) "caps_ratio" (str "ABcd")
    = Some (VFloat (Float false (2 ^ 52) (-53))) ∧
  feature (U := AsciiData.data) "caps_ratio" (str "abc")
    = Some (VFloat (Float false 0 (-1074))).
Proof. vm_compute. done. Qed.

Example extract_features_discount :
  let text := str "Get 50% off, only $20 today!" in
  feature (U := AsciiData.data) "percentage_mentions" text = Some (VInt 1) ∧
  feature (U := AsciiData.data) "price_mentions" text = Some (VInt 1) ∧
  feature (U := AsciiData.data) "number_count" text = Some (VInt 2).
Proof. vm_compute. done. Qed.

(** ** [clean_text]: what every cleaned text is like *)

(** The matcher of [self.emoji_pattern] *)
Section CleanBoth.
Context {U : UnicodeData}.

Lemma sub_emoji_pattern repl s :
  sub emoji_pattern repl s = gsub (run_rest is_emoji) repl s.
Proof.
  rewrite sub_pieces; [|done|cbn; lia]. unfold gsub. f_equal.
  apply pieces_ext. intros t. apply first_rest_plus_class.
Qed.

(** [clean_text] by its steps, for either flag *)
Lemma clean_text_steps text remove_emojis :
  clean_text text remove_emojis =
    if text is [] then []
    else strip (gsub (run_rest is_space) (str " ")
           (if remove_emojis
            then gsub (run_rest is_emoji) [] (gsub url_rest [] (gsub tag_rest [] text))
            else gsub url_rest [] (gsub tag_rest [] text))).
Proof.
  unfold clean_text. destruct text; [done|].
  rewrite sub_html_tag, sub_url, sub_whitespace.
  destruct remove_emojis; [by rewrite sub_emoji_pattern | done].
Qed.

Lemma strip_emoji_tag_free s :
  free tag_rest s → free tag_rest (gsub (run_rest is_emoji) [] s).
Proof.
  intros Hs. apply gsub_tag_free.
  - auto with proper_rest.
  - intros t. reflexivity.
  - apply not_elem_of_nil.
  - apply not_elem_of_nil.
  - intros k _. apply Hs.
Qed.

Lemma clean_text_shape text remove_emojis :
  let c := clean_text text remove_emojis in
  free tag_rest c ∧ spaced c ∧ strip c = c.
Proof.
  cbn. rewrite clean_text_steps. destruct text as [|a text].
  { split_and!; try done. apply free_nil. auto with proper_rest. }
  generalize (a :: text). clear. intros text. split_and!.
  - apply free_strip; [auto with proper_rest | apply tag_rest_app |].
    apply collapse_tag_free. destruct remove_emojis.
    + apply strip_emoji_tag_free, strip_urls_tag_free, strip_tags_free.
    + apply strip_urls_tag_free, strip_tags_free.
  - apply spaced_strip, spaced_collapse.
  - apply strip_idem.
Qed.

(** X1: for either flag the cleaned text is normalised: trimming it or
    collapsing its whitespace again changes nothing, and its only
    whitespace is single spaces between other characters. *)
Theorem clean_text_normalised text remove_emojis :
  let c := clean_text text remove_emojis in
  strip c = c ∧ sub whitespace (str " ") c = c ∧ spaced c.
Proof.
  intros c. destruct (clean_text_shape text remove_emojis) as (_ & Hsp & Hst).
  split_and!; [done| |done]. rewrite sub_whitespace. by apply collapse_spaced.
Qed.

(** X2: for either flag the cleaned text holds no HTML tag: a search for
    the tag pattern finds nothing and the pattern matches at no offset. *)
Theorem clean_text_no_tag text remove_emojis :
  let c := clean_text text remove_emojis in
  search html_tag c = None ∧
  ∀ k, rmatch html_tag (last (take k c), drop k c) = [].
Proof.
  intros c. destruct (clean_text_shape text remove_emojis) as (Htag & _).
  apply (free_search html_tag tag_rest c);
    [done | cbn; lia | apply first_rest_html_tag | auto with proper_rest | done].
Qed.

Lemma gsub_run_none p s : Forall (λ c, p c = false) (gsub (run_rest p) [] s).
Proof.
  apply (gsub_ind (run_rest p) (run_rest_proper p) [] (λ _ out, Forall (λ c, p c = false) out)).
  - constructor.
  - intros c t E IH. constructor; [|done].
    unfold run_rest in E. cbn in E. by destruct (p c).
  - intros w t _ _ IH. exact IH.
Qed.

Lemma Forall_gsub (P : N → Prop) f repl s :
  proper f → Forall P repl → Forall P s → Forall P (gsub f repl s).
Proof.
  intros Hf Hrepl Hs. rewrite Forall_forall in Hrepl, Hs.
  apply Forall_forall. intros x Hx.
  apply elem_of_gsub in Hx as [Hx|Hx]; auto.
Qed.

Lemma Forall_strip (P : N → Prop) s : Forall P s → Forall P (strip s).
Proof.
  destruct (strip_factor s) as (pre & post & E). rewrite E at 1.
  intros [_ [H _]%Forall_app]%Forall_app. done.
Qed.

(** X3: with emoji removal on, no character of the cleaned text lies in
    the ranges of [emoji_pattern], and a search for the pattern finds
    nothing. *)
Theorem clean_text_no_emoji text :
  let c := clean_text text true in
  Forall (λ ch, is_emoji ch = false) c ∧ search emoji_pattern c = None.
Proof.
  intros c.
  assert (Forall (λ ch, is_emoji ch = false) c) as Hc.
  { unfold c. rewrite clean_text_steps. destruct text as [|a text]; [constructor|].
    apply Forall_strip, Forall_gsub; [auto with proper_rest|by repeat constructor|].
    apply gsub_run_none. }
  split; [done|].
  apply (free_search emoji_pattern (run_rest is_emoji) c);
    [done | cbn; lia | intros; apply first_rest_plus_class | auto with proper_rest |].
  intros k. unfold run_rest.
  destruct (drop k c) as [|x t] eqn:E; [done|]. cbn.
  assert (x ∈ c) as Hx.
  { rewrite <- (take_drop k c), E. apply elem_of_app. right. by left. }
  rewrite Forall_forall in Hc. by rewrite (Hc x Hx).
Qed.

Lemma length_gsub f repl s :
  proper f → (length repl ≤ 1)%nat → (length (gsub f repl s) ≤ length s)%nat.
Proof.
  intros Hf Hrepl.
  apply (gsub_ind f Hf repl (λ s out, (length out ≤ length s)%nat)).
  - done.
  - intros c t _ IH. cbn. lia.
  - intros w t Hw _ IH. rewrite !length_app. destruct w; [done|]. cbn. lia.
Qed.

Lemma length_strip s : (length (strip s) ≤ length s)%nat.
Proof.
  destruct (strip_factor s) as (pre & post & E). rewrite E at 2.
  rewrite !length_app. lia.
Qed.

(** X4: cleaning never makes a text longer, and every character of the
    cleaned text is a character of the text or a space. *)
Theorem clean_text_shrinks text remove_emojis :
  let c := clean_text text remove_emojis in
  (length c ≤ length text)%nat ∧
  Forall (λ ch, ch ∈ text ∨ ch = ord " ") c.
Proof.
  intros c. unfold c. rewrite clean_text_steps.
  destruct text as [|a text]; [split; [done|constructor]|].
  generalize (a :: text). clear. intros text. split.
  - etrans; [apply length_strip|].
    etrans; [apply length_gsub; [auto with proper_rest|cbn; lia]|].
    destruct remove_emojis.
    + etrans; [apply length_gsub; [auto with proper_rest|cbn; lia]|].
      etrans; [apply length_gsub; [auto with proper_rest|cbn; lia]|].
      apply length_gsub; [auto with proper_rest|cbn; lia].
    + etrans; [apply length_gsub; [auto with proper_rest|cbn; lia]|].
      apply length_gsub; [auto with proper_rest|cbn; lia].
  - apply Forall_strip, Forall_gsub; [auto with proper_rest| |].
    { constructor; [by right|constructor]. }
    destruct remove_emojis.
    + do 3 (apply Forall_gsub; [auto with proper_rest|constructor|]).
      apply Forall_forall. intros; by left.
    + do 2 (apply Forall_gsub; [auto with proper_rest|constructor|]).
      apply Forall_forall. intros; by left.
Qed.
End CleanBoth.

(** ** [clean_text]: the texts it leaves as they are *)

Section FixedPoints.
Context {U : UnicodeData}.

Lemma hits_spans pos ps : spans pos ps = [] → hits ps = 0%nat.
Proof.
  revert pos. induction ps as [|[c|m] ps IH]; intros pos; cbn; [done|apply IH|done].
Qed.

Lemma no_hits_free f s : proper f → hits (pieces f s) = 0%nat → free f s.
Proof.
  intros Hf. apply (pieces_ind f Hf (λ s ps, hits ps = 0%nat → free f s)).
  - intros _. by apply free_nil.
  - intros c t E IH Hh. apply free_cons; [done|by apply IH].
  - intros w t _ _ _ Hh. done.
Qed.

Lemma search_None_free r f s :
  boundary_free r = true → (0 < min_len r)%nat →
  (∀ t, first_rest r t = f t) → proper f →
  search r s = None → free f s.
Proof.
  intros Hbf Hpos Hf Hproper Hs. apply no_hits_free; [done|].
  unfold search in Hs. rewrite finditer_pieces in Hs by done.
  rewrite (pieces_ext _ f) in Hs by done.
  apply head_None in Hs. by apply hits_spans in Hs.
Qed.

(** X5: with emoji removal off, cleaning leaves a text as it is exactly
    when the text holds no tag and no URL and is already collapsed and
    trimmed. *)
Theorem clean_text_fixed_points text :
  clean_text text false = text ↔
  search html_tag text = None ∧ search url text = None ∧
  sub whitespace (str " ") text = text ∧ strip text = text.
Proof.
  split.
  - intros E. destruct (clean_text_tidy text) as (Htag & Hurl & Hsp & Hst).
    rewrite E in Htag, Hurl, Hsp, Hst. split_and!; [| | |done].
    + apply (free_search html_tag tag_rest text);
        [done | cbn; lia | apply first_rest_html_tag | auto with proper_rest | done].
    + apply (free_search url url_rest text);
        [done | cbn; lia | apply first_rest_url | auto with proper_rest | done].
    + rewrite sub_whitespace. by apply collapse_spaced.
  - intros (Htag & Hurl & Hws & Hst). rewrite clean_text_plain.
    destruct text as [|a text]; [done|].
    apply (search_None_free html_tag tag_rest) in Htag;
      [|done | cbn; lia | apply first_rest_html_tag | auto with proper_rest].
    apply (search_None_free url url_rest) in Hurl;
      [|done | cbn; lia | apply first_rest_url | auto with proper_rest].
    rewrite sub_whitespace in Hws.
    rewrite (free_gsub tag_rest) by (auto with proper_rest || done).
    rewrite (free_gsub url_rest) by (auto with proper_rest || done).
    by rewrite Hws.
Qed.
End FixedPoints.

(** ** [extract_features]: bounds on the counts *)

Section FeatureBounds.
Context {U : UnicodeData}.

Lemma scan_hits_bound (m : bool → state → option nat) n0 n :
  (∀ ma st k, m ma st = Some k → (n0 ≤ k ≤ length st.2)%nat) → (0 < n0)%nat →
  ∀ s prev, (length s < n)%nat → (n0 * hits (scan m 0 prev s) ≤ length s)%nat.
Proof.
  intros Hm Hpos. induction n as [|n IH]; intros s prev Hn; [lia|].
  destruct (m false (prev, s)) as [k|] eqn:E.
  - pose proof (Hm _ _ _ E) as Hk. cbn in Hk.
    rewrite (scan_hit _ _ _ k) by (done || lia). cbn [hits].
    specialize (IH (drop k s) (prev_after prev s k)).
    rewrite length_drop in IH. lia.
  - destruct s as [|c s]; [rewrite scan_end by done; cbn; lia|].
    rewrite scan_miss by done. cbn [hits length].
    specialize (IH s (Some c)). cbn in Hn. lia.
Qed.

Lemma findall_bound r s :
  (0 < min_len r)%nat → (min_len r * length (findall r s) ≤ length s)%nat.
Proof.
  intros Hpos. unfold findall, finditer. rewrite length_fmap, length_spans.
  apply (scan_hits_bound _ _ (S (length s))); [|done|lia].
  intros ma st k E. by apply match_at_bound in E.
Qed.

Lemma length_split_runs cur s :
  (length (split_runs cur s) ≤ length s + (if cur is [] then 0 else 1))%nat.
Proof.
  revert cur. induction s as [|c s IH]; intros cur; cbn [split_runs].
  - destruct cur; cbn; lia.
  - destruct (is_space c).
    + specialize (IH []). destruct cur; cbn in *; lia.
    + specialize (IH (cur ++ [c])). destruct (cur ++ [c]) eqn:E.
      * by destruct cur.
      * cbn. destruct cur; lia.
Qed.

Lemma length_split_on sep s :
  length (split_on sep s) = S (length (filter (λ c, c = sep) s)).
Proof.
  induction s as [|c s IH]; [done|]. cbn [split_on].
  destruct (N.eqb_spec c sep) as [->|Hne].
  - rewrite filter_cons_True by done. cbn. by rewrite IH.
  - rewrite filter_cons_False by done.
    destruct (split_on sep s); cbn in *; [lia|done].
Qed.

Lemma nonempty_segments sep s :
  (length (filter (λ seg, seg ≠ []) (split_on sep s)) ≤ length s)%nat.
Proof.
  induction s as [|c s IH]; [done|]. cbn [split_on].
  destruct (c =? sep).
  - rewrite filter_cons_False by (intros H; by apply H). cbn [length]. lia.
  - destruct (split_on sep s) as [|seg segs].
    { rewrite filter_cons_True by done. cbn. lia. }
    rewrite filter_cons_True by done. rewrite filter_cons in IH.
    destruct (decide (seg ≠ [])); cbn [length] in *; lia.
Qed.

Lemma strip_nonempty_segment s : strip s ≠ [] → s ≠ [].
Proof. intros Hs ->. by apply Hs. Qed.

Lemma length_filter_impl {A} (P Q : A → Prop) `{!∀ x, Decision (P x), !∀ x, Decision (Q x)}
    (l : list A) :
  (∀ x, P x → Q x) → (length (filter P l) ≤ length (filter Q l))%nat.
Proof.
  intros HPQ. induction l as [|x l IH]; [done|]. rewrite !filter_cons.
  destruct (decide (P x)), (decide (Q x)); cbn; try lia. naive_solver.
Qed.

Lemma sentences_bound s :
  (length (filter (λ seg, strip seg ≠ []) (split_on (ord ".") s)) ≤ length s)%nat.
Proof.
  etrans; [|apply (nonempty_segments (ord "."))].
  apply length_filter_impl. intros seg. apply strip_nonempty_segment.
Qed.

(** X6: every feature but [caps_ratio] is an integer between 0 and the
    number of characters of the text. *)
Theorem extract_features_counts_bounded text :
  Forall (λ key, ∃ n, feature key text = Some (VInt n) ∧ (0 ≤ n ≤ len text)%Z)
         count_keys.
Proof.
  assert (∀ r k, min_len r = S k →
            (S k * length (findall r text) ≤ length text)%nat) as Hb.
  { intros r k E. rewrite <- E. apply findall_bound. lia. }
  pose proof (Hb all_caps _ eq_refl) as Hcaps.
  pose proof (Hb emoji_pattern _ eq_refl) as Hemoji.
  pose proof (Hb number _ eq_refl) as Hnum.
  pose proof (Hb percentage _ eq_refl) as Hpct.
  pose proof (Hb price _ eq_refl) as Hprice.
  assert (Forall (λ r, (3 * length (findall r text) ≤ length text)%nat)
            feature_cta_patterns) as Hcta.
  { repeat (apply Forall_cons_2; [by apply Hb|]). constructor. }
  apply Forall_cons_1 in Hcta as [Hc1 Hcta]. apply Forall_cons_1 in Hcta as [Hc2 _].
  pose proof (length_split_runs [] text) as Hwords.
  pose proof (sentences_bound text) as Hsent.
  pose proof (length_filter (λ c, c = ord "!") text) as Hex.
  pose proof (length_filter (λ c, c = ord "?") text) as Hq.
  unfold count_keys.
  repeat (apply Forall_cons_2;
    [eexists; rewrite feature_lookup; unfold features_of;
     split; [repeat (rewrite lookup_insert_ne by done); by rewrite lookup_insert_eq|];
     unfold len, count, split, feature_cta_patterns, py_sum in *;
     cbn [foldl fmap list_fmap];
     try lia|]).
  all: try constructor.
Qed.
End FeatureBounds.

(** ** [extract_features] on a cleaned text *)

Section CleanedFeatures.
Context {U : UnicodeData}.

(** X7: [sentence_count] is at most the number of periods of the text
    plus one. *)
Theorem sentence_count_periods text :
  ∃ n, feature "sentence_count" text = Some (VInt n) ∧
       (0 ≤ n ≤ Z.of_nat (count "." text) + 1)%Z.
Proof.
  eexists. rewrite feature_lookup. unfold features_of.
  split; [repeat (rewrite lookup_insert_ne by done); by rewrite lookup_insert_eq|].
  unfold len, count.
  pose proof (length_filter (λ s, strip s ≠ []) (split_on (ord ".") text)) as H.
  rewrite length_split_on in H. lia.
Qed.

Lemma strip_fixed_ends s :
  strip s = s → take_while is_space s = [] ∧ take_while is_space (reverse s) = [].
Proof.
  intros E.
  pose proof (lstrip_factor s) as E1.
  pose proof (rstrip_factor (lstrip s)) as E2. fold (strip s) in E2. rewrite E in E2.
  assert (take_while is_space s = []) as Htw.
  { apply (f_equal length) in E1, E2. rewrite length_app in E1, E2.
    destruct (take_while is_space s); [done|]. cbn in *. lia. }
  split; [done|].
  assert (lstrip s = s) as El by (unfold lstrip; by apply take_while_nil).
  rewrite El in E2. apply (f_equal length) in E2.
  rewrite length_app, length_reverse in E2.
  destruct (take_while is_space (reverse s)); [done|]. cbn in *. lia.
Qed.

Lemma take_while_nil_head p s :
  take_while p s = [] → match s with c :: _ => p c = false | [] => True end.
Proof. destruct s as [|c s]; [done|]. cbn. by destruct (p c). Qed.

Lemma is_space_char : is_space (ord " ") = true.
Proof. reflexivity. Qed.

Lemma count_words cur s :
  spaced s →
  match last s with Some c => is_space c = false | None => True end →
  cur ≠ [] ∨ match s with c :: _ => is_space c = false | [] => True end →
  length (split_runs cur s) =
    (count " " s + (if decide (cur = [] ∧ s = []) then 0 else 1))%nat.
Proof.
  revert cur. induction s as [|c s IH]; intros cur Hsp Hlast Hhead.
  - cbn. destruct cur; [done|]. by rewrite decide_False by (by intros [? _]).
  - destruct Hsp as [Hc Hsp]. cbn [split_runs]. unfold count in *.
    rewrite decide_False by (by intros [_ ?]).
    destruct (is_space c) eqn:Ec.
    + destruct Hc as [-> Hnext]; [done|].
      destruct Hhead as [Hcur|Hhead]; [|cbn in Hhead; congruence].
      destruct s as [|d s]; [cbn [last] in Hlast; congruence|].
      rewrite filter_cons_True by done.
      destruct cur as [|x cur]; [done|]. cbn [length].
      rewrite IH; [|done| |by right].
      * rewrite decide_False by (by intros [_ ?]). lia.
      * by rewrite last_cons_cons in Hlast.
    + rewrite filter_cons_False by (intros ->; by rewrite is_space_char in Ec).
      rewrite IH; [|done| |left; by destruct cur].
      * rewrite decide_False by (intros [? _]; by destruct cur). lia.
      * destruct s as [|d s]; [done|]. by rewrite last_cons_cons in Hlast.
Qed.

(** X8: on a cleaned text, [word_count] is 0 if the text is empty and the
    number of its spaces plus one otherwise. *)
Theorem word_count_of_clean_text text remove_emojis :
  let c := clean_text text remove_emojis in
  feature "word_count" c =
    Some (VInt (if c is [] then 0 else Z.of_nat (count " " c) + 1)).
Proof.
  intros c. destruct (clean_text_shape text remove_emojis) as (_ & Hsp & Hst).
  fold c in Hsp, Hst. apply strip_fixed_ends in Hst as [Hh Hl].
  rewrite feature_lookup. unfold features_of.
  repeat (rewrite lookup_insert_ne by done). rewrite lookup_insert_eq.
  do 2 f_equal. unfold len, split. rewrite count_words; [|done| |right].
  - destruct c; [done|]. rewrite decide_False by (by intros [_ ?]). lia.
  - apply take_while_nil_head in Hl. rewrite <- head_reverse.
    by destruct (reverse c).
  - by apply take_while_nil_head.
Qed.
End CleanedFeatures.

(** ** [extract_buzzwords], [extract_cta_text] and
       [analyze_sentiment_indicators]: what the results hold *)

Section Buzz.
Context {U : UnicodeData}.

Lemma split_runs_words cur s w :
  Forall (λ c, is_space c = false) cur →
  w ∈ split_runs cur s → w ≠ [] ∧ Forall (λ c, is_space c = false) w.
Proof.
  revert cur. induction s as [|c s IH]; intros cur Hcur Hw; cbn [split_runs] in Hw.
  - destruct cur; [by apply elem_of_nil in Hw|].
    by apply list_elem_of_singleton in Hw as ->.
  - destruct (is_space c) eqn:Ec.
    + destruct cur as [|x cur]; [by apply (IH [])|].
      apply elem_of_cons in Hw as [->|Hw]; [done|]. by apply (IH []).
    + apply (IH (cur ++ [c])); [|done]. apply Forall_app. by repeat constructor.
Qed.

(** X9: every buzzword is a non-empty word without whitespace, whatever
    the minimum length. *)
Theorem extract_buzzwords_words text min_length :
  Forall (λ word, word ≠ [] ∧ Forall (λ c, is_space c = false) word)
         (extract_buzzwords text min_length).
Proof.
  apply Forall_forall. intros word Hin. unfold extract_buzzwords in Hin.
  apply elem_of_elements, elem_of_list_to_set, list_elem_of_filter in Hin as [_ Hin].
  by apply (split_runs_words []) in Hin.
Qed.

(** X10: raising the minimum length only removes buzzwords. *)
Theorem extract_buzzwords_monotone text m n :
  (m ≤ n)%Z → extract_buzzwords text n ⊆ extract_buzzwords text m.
Proof.
  intros Hmn word Hin. unfold extract_buzzwords in *.
  apply elem_of_elements, elem_of_list_to_set, list_elem_of_filter in Hin
    as [[Hlen Hcommon] Hin].
  apply elem_of_elements, elem_of_list_to_set, list_elem_of_filter.
  split; [split; [lia|done]|done].
Qed.
End Buzz.

Lemma extract_buzzwords_monotone_witness :
  (3 ≤ 5)%Z ∧
  extract_buzzwords (U := AsciiData.data) (str "The Quick Brown Fox") 5
    ⊆ extract_buzzwords (U := AsciiData.data) (str "The Quick Brown Fox") 3.
Proof. split; [lia|]. apply extract_buzzwords_monotone. lia. Defined.

Section Keywords.
Context {U : UnicodeData}.

Lemma spans_matched (m : bool → state → option nat) n :
  (∀ ma st k, m ma st = Some k → (0 < k ≤ length st.2)%nat) →
  ∀ s prev pos, (length s < n)%nat →
    Forall (λ sp, (pos ≤ sp.1)%nat ∧
                  m false (prev_after prev s (sp.1 - pos), drop (sp.1 - pos) s)
                    = Some (length sp.2))
           (spans pos (scan m 0 prev s)).
Proof.
  intros Hm. induction n as [|n IH]; intros s prev pos Hn; [lia|].
  destruct (m false (prev, s)) as [k|] eqn:E.
  - pose proof (Hm _ _ _ E) as Hk. cbn in Hk.
    rewrite (scan_hit _ _ _ k) by done. cbn [spans].
    rewrite length_take, Nat.min_l by lia. constructor.
    + cbn. rewrite Nat.sub_diag, drop_0, length_take, Nat.min_l by lia. by split.
    + specialize (IH (drop k s) (prev_after prev s k) (pos + k)%nat).
      rewrite length_drop in IH.
      eapply Forall_impl; [apply IH; lia|]. intros [i x]. cbn. intros [Hi Ex].
      split; [lia|]. rewrite prev_after_drop, drop_drop in Ex by lia.
      by replace (i - pos)%nat with (k + (i - (pos + k)))%nat by lia.
  - destruct s as [|c s]; [rewrite scan_end by done; constructor|].
    rewrite scan_miss by done. cbn [spans].
    eapply Forall_impl; [apply (IH s (Some c) (S pos)); cbn in Hn; lia|].
    intros [i x]. cbn. intros [Hi Ex]. split; [lia|].
    replace (i - pos)%nat with (S (i - S pos)) by lia.
    by rewrite prev_after_S.
Qed.

Lemma findall_matched r text :
  (0 < min_len r)%nat →
  Forall (λ x, ∃ i st', st' ∈ rmatch r (last (take i text), drop i text) ∧
                        drop i text = x ++ st'.2)
         (findall r text).
Proof.
  intros Hpos. unfold findall, finditer. apply Forall_fmap.
  pose proof (finditer_in_order r text Hpos) as [Hocc _]. unfold finditer in Hocc.
  assert (∀ ma st k, match_at r ma st = Some k → (0 < k ≤ length st.2)%nat) as Hb.
  { intros ma st k E. apply match_at_bound in E. lia. }
  pose proof (spans_matched (match_at r) (S (length text)) Hb text None 0%nat
                (Nat.lt_succ_diag_r _)) as Hm.
  rewrite Forall_forall in Hocc, Hm. apply Forall_forall. intros [i x] Hin. cbn.
  destruct (Hocc _ Hin) as [_ Ex]. destruct (Hm _ Hin) as [_ E]. cbn in Ex, E.
  rewrite Nat.sub_0_r, prev_after_None in E.
  unfold match_at in E. apply head_Some_elem_of, list_elem_of_filter in E as [_ E].
  apply list_elem_of_fmap in E as (st' & El & Hst). cbn in El.
  exists i, st'. split; [done|].
  pose proof (rmatch_consumes _ _ _ Hst) as (k & Ek & Bk). cbn in Ek, Bk.
  rewrite Ek, !length_drop in El. rewrite length_drop in Bk. rewrite Ek.
  assert (length x = k) as Hk by lia.
  rewrite <- Ex at 1. by rewrite Hk, take_drop.
Qed.

Lemma rmatch_IWord w st st' :
  st' ∈ rmatch (IWord w) st →
  ∃ m, st.2 = m ++ st'.2 ∧
       Forall2 (λ p c, ignorecase_eq p c = true) (str w) m.
Proof.
  revert st. induction w as [|a w IH]; intros [prev s] Hin; cbn [IWord rmatch] in Hin.
  - apply list_elem_of_singleton in Hin as ->. by exists [].
  - apply list_elem_of_bind in Hin as (st1 & Hin & H1). cbn in H1.
    destruct s as [|c s]; [by apply elem_of_nil in H1|].
    destruct (ignorecase_eq (ord a) c) eqn:Ec; [|by apply elem_of_nil in H1].
    apply list_elem_of_singleton in H1 as ->.
    apply IH in Hin as (m & E & Hm). cbn in E. exists (c :: m). cbn.
    split; [by rewrite E | by constructor].
Qed.

Lemma rmatch_AnyOf rs st st' :
  st' ∈ rmatch (AnyOf rs) st → ∃ r, r ∈ rs ∧ st' ∈ rmatch r st.
Proof.
  induction rs as [|r rs IH]; cbn [AnyOf].
  - destruct st as [prev [|c s]]; cbn; intros Hin; by apply elem_of_nil in Hin.
  - destruct rs as [|r' rs].
    + intros Hin. exists r. split; [by left|done].
    + cbn [rmatch]. intros [Hin|Hin]%elem_of_app.
      * exists r. split; [by left|done].
      * destruct (IH Hin) as (r0 & Hr0 & Hin0). exists r0. split; [by right|done].
Qed.

Lemma rmatch_keywords ws st st' :
  st' ∈ rmatch (keywords ws) st →
  ∃ w m, w ∈ ws ∧ st.2 = m ++ st'.2 ∧
         Forall2 (λ p c, ignorecase_eq p c = true) (str w) m.
Proof.
  unfold keywords. cbn [rmatch]. intros Hin.
  apply list_elem_of_bind in Hin as (st1 & Hin & H1).
  destruct (xorb _ _); [|by apply elem_of_nil in H1].
  apply list_elem_of_singleton in H1 as ->.
  apply list_elem_of_bind in Hin as (st2 & Hin & H2).
  destruct (xorb _ _); [|by apply elem_of_nil in Hin].
  apply list_elem_of_singleton in Hin as ->.
  apply rmatch_AnyOf in H2 as (r & Hr & H2).
  apply list_elem_of_fmap in Hr as (w & -> & Hw).
  apply rmatch_IWord in H2 as (m & E & Hm). by exists w, m.
Qed.

Lemma findall_keywords ws text :
  (0 < min_len (keywords ws))%nat →
  Forall (λ x, ∃ w, w ∈ ws ∧ Forall2 (λ p c, ignorecase_eq p c = true) (str w) x)
         (findall (keywords ws) text).
Proof.
  intros Hpos. eapply Forall_impl; [by apply findall_matched|].
  intros x (i & st' & Hin & E). cbn in E.
  apply rmatch_keywords in Hin as (w & m & Hw & Em & Hm). cbn in Em.
  exists w. split; [done|]. rewrite E in Em. by apply app_inv_tail in Em as ->.
Qed.

(** X11: every call to action returned is one of the fifteen phrases of
    the patterns, up to the case of its characters. *)
Theorem extract_cta_text_phrases text :
  Forall (λ cta, ∃ phrase, phrase ∈ cta_phrases ∧
                 Forall2 (λ p c, ignorecase_eq p c = true) (str phrase) cta)
         (extract_cta_text text).
Proof.
  unfold extract_cta_text. rewrite foldl_extend. cbn [app].
  unfold cta_patterns. cbn [fmap list_fmap concat]. rewrite app_nil_r.
  assert (∀ ws, (0 < min_len (keywords ws))%nat → ws ⊆ cta_phrases →
            Forall (λ cta, ∃ phrase, phrase ∈ cta_phrases ∧
                      Forall2 (λ p c, ignorecase_eq p c = true) (str phrase) cta)
                   (findall (keywords ws) text)) as Hgroup.
  { intros ws Hpos Hsub. eapply Forall_impl; [by apply findall_keywords|].
    intros x (w & Hw & Hx). exists w. split; [by apply Hsub|done]. }
  rewrite !Forall_app.
  split_and!; apply Hgroup; first [cbn; lia | by apply (bool_decide_unpack _)].
Qed.

(** X12: the sentiment indicators are exactly the three counts, each
    between 0 and the number of characters of the text. *)
Theorem analyze_sentiment_indicators_counts text :
  dom (analyze_sentiment_indicators text)
    = list_to_set ["positive_count"; "negative_count"; "urgency_count"] ∧
  map_Forall (λ _ n, (0 ≤ n ≤ len text)%Z) (analyze_sentiment_indicators text).
Proof.
  split.
  - unfold analyze_sentiment_indicators. rewrite !dom_insert_L, dom_singleton_L.
    cbn. by rewrite (right_id_L ∅ (∪)).
  - assert (∀ r k, min_len r = S (S (S k)) →
              (3 * length (findall r text) ≤ length text)%nat) as Hb.
    { intros r k E. pose proof (findall_bound r text) as H. rewrite E in H. lia. }
    assert (∀ ps, Forall (λ r, (3 * length (findall r text) ≤ length text)%nat) ps →
              length ps = 2%nat → (0 ≤ count_matches ps text ≤ len text)%Z) as Hsum.
    { intros [|r1 [|r2 [|? ?]]] Hps Hl; try done.
      apply Forall_cons_1 in Hps as [H1 Hps]. apply Forall_cons_1 in Hps as [H2 _].
      unfold count_matches, py_sum, len. cbn. lia. }
    unfold analyze_sentiment_indicators.
    repeat (apply map_Forall_insert_2;
      [apply Hsum; [repeat (apply Forall_cons_2; [by eapply Hb|]); constructor|done]|]).
    apply map_Forall_empty.
Qed.
End Keywords.

(** ** shared_utils/config_management.py and [get_project_root] *)

Section DictProperties.
Context {V : Type}.
Implicit Types (config merged : gmap (list N) V) (configs : list (gmap (list N) V)).

Lemma update_all_lookup merged configs key :
  foldl (λ merged config, config ∪ merged) merged configs !! key =
    match head (omap (.!! key) (reverse configs)) with
    | Some v => Some v
    | None => merged !! key
    end.
Proof.
  revert merged. induction configs as [|config configs IH]; intros merged; [done|].
  cbn [foldl]. rewrite IH, reverse_cons, omap_app. cbn [omap].
  destruct (omap (.!! key) (reverse configs)) as [|v vs]; [|done]. cbn.
  rewrite lookup_union. by destruct (config !! key), (merged !! key).
Qed.

(** X13: the merged configuration gives a key the value of the last
    configuration that sets it, and no value if none does. *)
Theorem merge_configs_lookup configs key :
  merge_configs configs !! key = head (omap (.!! key) (reverse configs)).
Proof.
  unfold merge_configs. rewrite update_all_lookup, lookup_empty.
  by destruct (head _).
Qed.

Lemma update_all_union merged configs :
  foldl (λ merged config, config ∪ merged) merged configs
    = merge_configs configs ∪ merged.
Proof.
  apply map_eq. intros key. unfold merge_configs.
  rewrite lookup_union, !update_all_lookup, lookup_empty.
  by destruct (head _), (merged !! key).
Qed.

(** X14: merging two merged configurations is merging all the
    configurations at once. *)
Theorem merge_configs_staged configs1 configs2 :
  merge_configs [merge_configs configs1; merge_configs configs2]
    = merge_configs (configs1 ++ configs2).
Proof.
  unfold merge_configs at 1. cbn [foldl].
  unfold merge_configs at 3. rewrite foldl_app. fold (merge_configs configs1).
  rewrite update_all_union. by rewrite (right_id_L ∅ (∪)).
Qed.

Lemma merge_configs_None configs key :
  merge_configs configs !! key = None ↔ Forall (λ config, config !! key = None) configs.
Proof.
  unfold merge_configs. rewrite update_all_lookup, lookup_empty.
  rewrite <- (Forall_reverse _ configs).
  induction (reverse configs) as [|config l IH]; [by split|].
  cbn. destruct (config !! key) eqn:E; cbn.
  - split; [done|]. intros H. apply Forall_cons_1 in H as [? _]. congruence.
  - rewrite IH. split; [by constructor|]. by intros [_ ?]%Forall_cons_1.
Qed.

(** X15: a merged configuration is valid exactly when every required key
    is set by one of the configurations; the keys reported missing are
    those that none sets, in the order of [required_keys]. *)
Theorem validate_merged_configs configs required_keys :
  validate_config (merge_configs configs) required_keys =
    let missing_keys :=
      filter (λ key, Forall (λ config, config !! key = None) configs) required_keys in
    if missing_keys is [] then (true, []) else (false, [missing_keys]).
Proof.
  unfold validate_config. cbn zeta.
  by rewrite (list_filter_iff _ (λ key, Forall (λ config, config !! key = None) configs))
    by (intros; apply merge_configs_None).
Qed.
End DictProperties.

Section ManagerProperties.
Context {U : UnicodeData}.
Context {path : Type} (join : path → list N → path) (suffix : path → list N).
Context {pyval : Type} (truthy : pyval → bool) (empty_dict : pyval).
Implicit Types (fs : filesystem path pyval).

Lemma first_existing_found fs config_dir config_name exts p :
  first_existing join fs config_dir config_name exts = Some p →
  file_exists fs p = true ∧
  ∃ ext, ext ∈ exts ∧ p = join config_dir (config_name ++ str ext).
Proof.
  induction exts as [|ext exts IH]; [done|]. cbn [first_existing].
  destruct (file_exists fs (join config_dir (config_name ++ str ext))) eqn:E.
  - intros [= <-]. split; [done|]. exists ext. split; [by left|done].
  - intros (? & ext' & ? & ?)%IH. split; [done|]. exists ext'. split; [by right|done].
Qed.

(** X16: a path returned by [_find_config_file] exists and is the name in
    the configuration directory, as given or with one of the extensions
    [.json], [.yml], [.yaml] added. *)
Theorem find_config_file_exists fs config_dir config_name config_type :
  match _find_config_file join fs config_dir config_name config_type with
  | Some config_path =>
      file_exists fs config_path = true ∧
      ∃ ext, ext ∈ [""; ".json"; ".yml"; ".yaml"] ∧
             config_path = join config_dir (config_name ++ str ext)
  | None => True
  end.
Proof.
  unfold _find_config_file.
  assert (∀ ext, ext ∈ [""; ".json"; ".yml"; ".yaml"] →
    match (let config_path := join config_dir (config_name ++ str ext) in
           if file_exists fs config_path then Some config_path else None) with
    | Some config_path =>
        file_exists fs config_path = true ∧
        ∃ ext, ext ∈ [""; ".json"; ".yml"; ".yaml"] ∧
               config_path = join config_dir (config_name ++ str ext)
    | None => True
    end) as Hcheck.
  { intros ext Hext. cbn zeta.
    destruct (file_exists fs _) eqn:E; [|done]. split; [done|]. by exists ext. }
  repeat case_bool_decide.
  - apply (Hcheck ".json"). by apply (bool_decide_unpack _).
  - destruct (str_in _ _).
    + apply (Hcheck ".yml"). by apply (bool_decide_unpack _).
    + destruct (first_existing _ _ _ _ _) as [p|] eqn:E; [|done].
      apply first_existing_found in E as (? & ext & Hext & ->).
      split; [done|]. exists ext. split; [|done].
      apply list_elem_of_In in Hext. apply list_elem_of_In. cbn in *. tauto.
  - assert ("" ∈ [""; ".json"; ".yml"; ".yaml"]) as Hext by left.
    apply Hcheck in Hext. cbn [str] in Hext.
    by rewrite app_nil_r in Hext.
Qed.

(** X17: what a load with the cache leaves in the cache. Whatever is
    cached under the key after the load is the configuration that was
    returned, and the same load returns it again without a warning and
    without touching the cache, whatever has become of the files (as
    long as the returned dict has not been mutated). A file that is
    missing or fails to load is not cached: with nothing cached before,
    the load returns the empty dict and leaves the cache as it was. No
    other key of the cache changes. *)
Theorem load_config_cached fs fs' config_dir cache config_name config_type :
  let cache_key := config_name ++ str "_" ++ config_type in
  let '(config, cache', warnings) :=
    load_config join suffix truthy empty_dict fs config_dir cache
      config_name config_type true in
  (∀ cached, cache' !! cache_key = Some cached →
     config = cached ∧
     load_config join suffix truthy empty_dict fs' config_dir cache'
       config_name config_type true = (cached, cache', [])) ∧
  (cache !! cache_key = None →
   match _find_config_file join fs config_dir config_name config_type with
   | None => config = empty_dict ∧ cache' = cache ∧ warnings = []
   | Some config_path =>
       (if str_in (lower (suffix config_path)) [".yml"; ".yaml"]
        then yaml_safe_load fs config_path = None
        else lower (suffix config_path) = str ".json" ∧
             json_load fs config_path = None) →
       config = empty_dict ∧ cache' = cache ∧ warnings = [config_path]
   end) ∧
  (∀ key, key ≠ cache_key → cache' !! key = cache !! key).
Proof.
  intros cache_key. unfold load_config. fold cache_key.
  destruct (cache !! cache_key) as [config|] eqn:Ec.
  { split_and!; [|done..]. intros cached Hc. rewrite Hc. split; congruence. }
  destruct (_find_config_file join fs config_dir config_name config_type) as [p|];
    [|split_and!; [congruence|done..]].
  destruct (str_in (lower (suffix p)) [".yml"; ".yaml"]).
  - destruct (yaml_safe_load fs p) as [v|]; cbn.
    + split_and!.
      * intros cached. rewrite lookup_insert_eq. intros [= <-]. done.
      * by intros _ ?.
      * intros key Hkey. by rewrite lookup_insert_ne.
    + split_and!; [congruence|done..].
  - case_bool_decide as Ej.
    + destruct (json_load fs p) as [v|]; cbn.
      * split_and!.
        -- intros cached. rewrite lookup_insert_eq. intros [= <-]. done.
        -- by intros _ [_ ?].
        -- intros key Hkey. by rewrite lookup_insert_ne.
      * split_and!; [congruence|done..].
    + split_and!.
      * intros cached. rewrite lookup_insert_eq. intros [= <-]. done.
      * by intros _ [? _].
      * intros key Hkey. by rewrite lookup_insert_ne.
Qed.

(** X18: with [use_cache] off the cache is neither read nor written: the
    configuration and the warning are those of a manager with an empty
    cache, and the cache is left as it is. *)
Theorem load_config_uncached fs config_dir cache config_name config_type :
  load_config join suffix truthy empty_dict fs config_dir cache
    config_name config_type false =
  let '(config, _, warnings) :=
    load_config join suffix truthy empty_dict fs config_dir ∅
      config_name config_type false in
  (config, cache, warnings).
Proof.
  unfold load_config.
  destruct (_find_config_file join fs config_dir config_name config_type) as [p|];
    [|done].
  by match goal with |- context [match ?l with Some _ => _ | None => _ end] =>
    destruct l as [config|] end.
Qed.
End ManagerProperties.

Section EnvProperties.
Context {U : UnicodeData}.
Context {default_value float : Type}.
Context (parse_int : list N → option Z) (parse_float : list N → option float).

End EnvProperties.

Section RootProperties.
Context {path : Type} (join : path → list N → path) (exists_ : path → bool).

Lemma has_marker_Exists p marker_files :
  has_marker join exists_ p marker_files = true ↔
  Exists (λ marker, exists_ (join p marker) = true) marker_files.
Proof.
  induction marker_files as [|marker rest IH]; cbn.
  - split; [done | by intros ?%Exists_nil].
  - rewrite Exists_cons. destruct (exists_ (join p marker)).
    + split; [by left|done].
    + rewrite IH. split; [by right | by intros [?|?]].
Qed.

Lemma first_marked_Some paths marker_files p :
  first_marked join exists_ paths marker_files = Some p ↔
  ∃ nearer further, paths = nearer ++ p :: further ∧
    has_marker join exists_ p marker_files = true ∧
    Forall (λ q, has_marker join exists_ q marker_files = false) nearer.
Proof.
  induction paths as [|q paths IH]; cbn.
  - split; [done|]. intros (nearer & ? & E & _). by destruct nearer.
  - destruct (has_marker join exists_ q marker_files) eqn:Eq.
    + split.
      * intros [= ->]. exists [], paths. by repeat split.
      * intros ([|q' nearer] & further & E & Hp & Hn).
        -- by injection E as ->.
        -- injection E as <- _. apply Forall_cons_1 in Hn as [? _]. congruence.
    + rewrite IH. split.
      * intros (nearer & further & -> & Hp & Hn). exists (q :: nearer), further.
        split; [done|]. split; [done|]. by constructor.
      * intros ([|q' nearer] & further & E & Hp & Hn).
        -- injection E as -> _. congruence.
        -- injection E as <- ->. apply Forall_cons_1 in Hn as [_ Hn].
           by exists nearer, further.
Qed.

(** X20: the project root is the nearest of the current directory and
    its parents that holds a marker file: no directory before it holds
    one. *)
Theorem get_project_root_nearest cwd parents marker_files p :
  let markers :=
    default (str <$> [".git"; "pyproject.toml"; "setup.py"; "package.json";
                      "requirements.txt"]) marker_files in
  get_project_root join exists_ cwd parents marker_files = Some p ↔
  ∃ nearer further, cwd :: parents = nearer ++ p :: further ∧
    Exists (λ marker, exists_ (join p marker) = true) markers ∧
    Forall (λ q, Forall (λ marker, exists_ (join q marker) = false) markers) nearer.
Proof.
  intros markers. unfold get_project_root.
  replace (match marker_files with Some m => m | None => _ end) with markers
    by by destruct marker_files.
  rewrite first_marked_Some. cbn [app].
  split; intros (nearer & further & E & Hp & Hn); exists nearer, further;
    (split; [done|]); (split; [by apply has_marker_Exists|]);
    eapply Forall_impl; [exact Hn| |exact Hn|]; intros q Hq.
  - apply Forall_forall. intros m Hm.
    destruct (exists_ (join q m)) eqn:E'; [|done].
    assert (has_marker join exists_ q markers = true) as Ht; [|congruence].
    apply has_marker_Exists, Exists_exists. by exists m.
  - destruct (has_marker join exists_ q markers) eqn:E'; [|done].
    apply has_marker_Exists, Exists_exists in E' as (m & Hm & Em).
    rewrite Forall_forall in Hq. rewrite (Hq m Hm) in Em. done.
Qed.
End RootProperties.
